(** * The action-search dialog and the ISO 639 parser of GIMP, in Rocq

    A shallow embedding of [action-search-dialog.c] (the keyword matcher,
    the results list, confirming a selection) and of
    [gimplanguagestore-parser.c] (the per-entry code selection, the
    self-localisation of a language name, the start/end element state
    machine), with the properties proved about them.

    C strings are modelled by [string]: the bytes before the terminating
    NUL.  A [gchar *] that may be NULL is an [option string]. *)

From Stdlib Require Import ZArith List Bool Ascii String Lia Sorted Arith.
Import ListNotations.

Local Open Scope string_scope.
Local Open Scope list_scope.

(** ** The pieces of libc and GLib the two files call *)

Module Libc.

Definition strlen (s : string) : nat := String.length s.

(** [strchr (s, c)]: the string from the first occurrence of [c] on, as the
    returned pointer sees it; [None] is NULL.  The callers pass a space, a
    semicolon or the first byte of a non-empty key, never NUL. *)
Fixpoint strchr (s : string) (c : ascii) : option string :=
  match s with
  | EmptyString => None
  | String a rest => if Ascii.eqb a c then Some s else strchr rest c
  end.

(** [p + 1] for a pointer [p] to a character of a string. *)
Definition next_char (p : string) : string :=
  match p with
  | EmptyString => EmptyString
  | String _ rest => rest
  end.

(** [s[i]] for [i < strlen (s)]; [None] stands for the terminating NUL at
    [i = strlen (s)], which no character of a C string equals. *)
Definition char_at (s : string) (i : nat) : option ascii := String.get i s.

(** [strstr (haystack, needle)]: the offset of the first occurrence of
    [needle]; [None] is NULL. *)
Fixpoint strstr (haystack needle : string) : option nat :=
  if String.prefix needle haystack then Some 0%nat
  else match haystack with
       | EmptyString => None
       | String _ rest => option_map S (strstr rest needle)
       end.

(** [tolower] on one byte: the upper-case ASCII letters move down by 32,
    every other byte stays. *)
Definition isupper (c : ascii) : bool :=
  let n := nat_of_ascii c in (65 <=? n)%nat && (n <=? 90)%nat.

Definition tolower (c : ascii) : ascii :=
  if isupper c then ascii_of_nat (nat_of_ascii c + 32) else c.

(** [g_strcmp0 (a, b) == 0]: equal strings, or both NULL. *)
Definition g_strcmp0_eq (a b : option string) : bool :=
  match a, b with
  | Some x, Some y => String.eqb x y
  | None, None => true
  | _, _ => false
  end.

Definition g_str_has_prefix (str prefix : string) : bool :=
  String.prefix prefix str.

Definition g_str_has_suffix (str suffix : string) : bool :=
  let n := strlen str in
  let m := strlen suffix in
  (m <=? n)%nat && String.eqb (String.substring (n - m) m str) suffix.

(** [g_ascii_isspace]: the bytes GLib's table marks as white space, which
    are the horizontal tab (9), the newline (10), the form feed (12), the
    carriage return (13) and the space (32).  The vertical tab (11) is not
    among them, unlike for [isspace] of the C library. *)
Definition g_ascii_isspace (c : ascii) : bool :=
  let n := nat_of_ascii c in
  (n =? 9)%nat || (n =? 10)%nat || (n =? 12)%nat || (n =? 13)%nat ||
  (n =? 32)%nat.

Fixpoint g_strchug (s : string) : string :=
  match s with
  | EmptyString => EmptyString
  | String c rest => if g_ascii_isspace c then g_strchug rest else s
  end.

Fixpoint g_strchomp (s : string) : string :=
  match s with
  | EmptyString => EmptyString
  | String c rest =>
      match g_strchomp rest with
      | EmptyString => if g_ascii_isspace c then EmptyString
                       else String c EmptyString
      | kept => String c kept
      end
  end.

(** [g_strstrip]: [g_strchomp (g_strchug (s))]. *)
Definition g_strstrip (s : string) : string := g_strchomp (g_strchug s).

End Libc.

Import Libc.

(** ** action-search-dialog.c *)

Module ActionSearch.

(** What the dialog reads of a [GtkAction].  [stripped_label] is
    [gimp_strip_uline (gtk_action_get_label (action))], the label without
    its mnemonic underscores: the dialog never reads the label in another
    form, and [gimp_strip_uline] keeps NULL.  The record is the action as it
    is when it is read. *)
Record GtkAction : Type := {
  gtk_action_get_name : string;
  stripped_label : option string;
  gtk_action_get_tooltip : option string;
  gtk_action_get_sensitive : bool
}.

(** The loops [for (i = 0; i < strlen (s); i++) s[i] = tolower (s[i])]. *)
Fixpoint lowercase (s : string) : string :=
  match s with
  | EmptyString => EmptyString
  | String c rest => String (tolower c) (lowercase rest)
  end.

(** [action_fuzzy_match]: the recursion is on [key]; [strchr] finds the
    leftmost occurrence of [key[0]] and the search goes on just after it. *)
Fixpoint action_fuzzy_match (string_ key : string) : bool :=
  match key with
  | EmptyString => true
  | String k key_plus_1 =>
      match strchr string_ k with
      | Some remaining_string =>
          action_fuzzy_match (next_char remaining_string) key_plus_1
      | None => false
      end
  end.

(** A result of the matcher: FALSE, or TRUE with the value stored in
    [*section]. *)
Inductive match_result : Type :=
| NO_MATCH
| MATCH (section : Z).

(** The two-letter rule of [action_search_match_keyword], on the lower-cased
    label and key. *)
Definition initials_rule (label key : string) : bool :=
  if (strlen key =? 2)%nat then
    match strchr label " " with
    | Some space_pos =>
        match char_at key 0, char_at key 1 with
        | Some k0, Some k1 =>
            match char_at label 0, char_at space_pos 1 with
            | Some l0, Some s1 => Ascii.eqb k0 l0 && Ascii.eqb k1 s1
            | _, _ => false
            end
        | _, _ => false
        end
    | None => false
    end
  else false.

(** [action_search_match_keyword].  [None] is the undefined call: a keyword
    given and a NULL label, where [strlen (label)] reads through NULL. *)
Definition action_search_match_keyword
    (action : GtkAction) (keyword : option string) : option match_result :=
  match keyword with
  | None => Some (MATCH 0)
  | Some keyword =>
      match stripped_label action with
      | None => None
      | Some label =>
          let key := lowercase keyword in
          let label := lowercase label in
          if initials_rule label key then Some (MATCH 1)
          else
            let by_text :=
              match strstr label key with
              | Some offset =>
                  MATCH (if (offset =? 0)%nat then 1 else 2)
              | None =>
                  if (2 <? strlen key)%nat then
                    match gtk_action_get_tooltip action with
                    | Some tooltip =>
                        match strstr (lowercase tooltip) key with
                        | Some _ => MATCH 3
                        | None => NO_MATCH
                        end
                    | None => NO_MATCH
                    end
                  else NO_MATCH
              end in
            match by_text with
            | MATCH section => Some (MATCH section)
            | NO_MATCH =>
                if action_fuzzy_match label key then Some (MATCH 4)
                else Some NO_MATCH
            end
      end
  end.

(** "Every character of the keyword appears in the label in the same
    relative order, not necessarily contiguous": the declarative
    subsequence relation the matcher is compared with. *)
Inductive subsequence : string -> string -> Prop :=
| subsequence_empty : forall l, subsequence EmptyString l
| subsequence_skip : forall c k l,
    subsequence k l -> subsequence k (String c l)
| subsequence_take : forall c k l,
    subsequence k l -> subsequence (String c k) (String c l).




(** *** The results list *)

(** A row of the list store: the columns RESULT_ACTION, IS_SENSITIVE and
    RESULT_SECTION.  RESULT_ICON and RESULT_DATA, the stock id and the
    markup text, are built from toolkit calls and decide nothing below. *)
Record ResultRow : Type := {
  RESULT_ACTION : GtkAction;
  IS_SENSITIVE : bool;
  RESULT_SECTION : Z
}.

(** The [while (TRUE)] loop of [action_search_add_to_results_list], from the
    row [next_section] points at: the new row goes before the first row of
    a greater section ([gtk_list_store_insert_before]), or at the end when
    [gtk_tree_model_iter_next] finds no further row or the store is empty
    ([gtk_list_store_append]). *)
Fixpoint insert_by_section (new : ResultRow) (rows : list ResultRow)
  : list ResultRow :=
  match rows with
  | [] => [new]
  | next_section :: rest =>
      if (RESULT_SECTION next_section >? RESULT_SECTION new)%Z
      then new :: rows
      else next_section :: insert_by_section new rest
  end.

(** [action_search_add_to_results_list], on the list store of
    [private->results_list], the one part of [private] it touches. *)
Definition action_search_add_to_results_list
    (action : GtkAction) (store : list ResultRow) (section : Z)
  : list ResultRow :=
  match option_map g_strstrip (stripped_label action) with
  | None => store
  | Some label =>
      if (strlen label =? 0)%nat then store
      else insert_by_section
             {| RESULT_ACTION := action;
                IS_SENSITIVE := gtk_action_get_sensitive action;
                RESULT_SECTION := section |} store
  end.

(** A run of calls of [action_search_add_to_results_list], each with its
    action and section, oldest first. *)
Fixpoint add_each (calls : list (GtkAction * Z)) (store : list ResultRow)
  : list ResultRow :=
  match calls with
  | [] => store
  | (action, section) :: rest =>
      add_each rest (action_search_add_to_results_list action store section)
  end.

(** The calls that add a row: those whose label is not NULL and not empty
    once [g_strstrip] has run. *)
Definition has_label (action : GtkAction) : bool :=
  match option_map g_strstrip (stripped_label action) with
  | None => false
  | Some label => negb (strlen label =? 0)%nat
  end.

(** The row a call sets. *)
Definition row_of (call : GtkAction * Z) : ResultRow :=
  {| RESULT_ACTION := fst call;
     IS_SENSITIVE := gtk_action_get_sensitive (fst call);
     RESULT_SECTION := snd call |}.

(** The rows that refer to an action of a given name. *)
Definition rows_named (name : string) (rows : list ResultRow)
  : list ResultRow :=
  filter (fun r => String.eqb (gtk_action_get_name (RESULT_ACTION r)) name)
    rows.

(** *** The history and the catalogue *)

(** The names [action_search_history_and_actions] passes over. *)
Definition skipped_name (name : string) : bool :=
  g_str_has_suffix name "-menu" ||
  g_str_has_suffix name "-popup" ||
  g_str_has_prefix name "context-" ||
  g_str_has_prefix name "plug-in-recent-".

(** The [list3] loop: is an action of this name among the history
    actions? *)
Fixpoint is_redundant (history_actions : list GtkAction) (name : string)
  : bool :=
  match history_actions with
  | [] => false
  | h :: rest =>
      if String.eqb (gtk_action_get_name h) name then true
      else is_redundant rest name
  end.

(** The first loop: the history actions go in at section 0. *)
Fixpoint add_history (history_actions : list GtkAction)
    (store : list ResultRow) : list ResultRow :=
  match history_actions with
  | [] => store
  | h :: rest =>
      add_history rest (action_search_add_to_results_list h store 0)
  end.

(** The body of the [list2] loop for one action of a group. *)
Definition scan_action (keyword : option string)
    (history_actions : list GtkAction) (search_show_unavailable : bool)
    (action : GtkAction) (store : list ResultRow)
  : option (list ResultRow) :=
  let name := gtk_action_get_name action in
  if skipped_name name then Some store
  else if negb (gtk_action_get_sensitive action) &&
          negb search_show_unavailable then Some store
  else
    match action_search_match_keyword action keyword with
    | None => None
    | Some NO_MATCH => Some store
    | Some (MATCH section) =>
        if is_redundant history_actions name then Some store
        else Some (action_search_add_to_results_list action store section)
    end.

Fixpoint scan_actions (keyword : option string)
    (history_actions : list GtkAction) (search_show_unavailable : bool)
    (actions : list GtkAction) (store : list ResultRow)
  : option (list ResultRow) :=
  match actions with
  | [] => Some store
  | action :: rest =>
      match scan_action keyword history_actions search_show_unavailable
              action store with
      | None => None
      | Some store' =>
          scan_actions keyword history_actions search_show_unavailable
            rest store'
      end
  end.

Fixpoint scan_groups (keyword : option string)
    (history_actions : list GtkAction) (search_show_unavailable : bool)
    (groups : list (list GtkAction)) (store : list ResultRow)
  : option (list ResultRow) :=
  match groups with
  | [] => Some store
  | actions :: rest =>
      match scan_actions keyword history_actions search_show_unavailable
              actions store with
      | None => None
      | Some store' =>
          scan_groups keyword history_actions search_show_unavailable
            rest store'
      end
  end.

(** [action_search_history_and_actions].  [history_actions] is the list
    [gimp_action_history_search] returned for the keyword; [groups] holds,
    per action group of the manager, its actions as [g_list_sort] left
    them; [store] is the list store.  [None] is an undefined run (the
    matcher called on a NULL label). *)
Definition action_search_history_and_actions
    (keyword : option string) (history_actions : list GtkAction)
    (groups : list (list GtkAction)) (search_show_unavailable : bool)
    (store : list ResultRow) : option (list ResultRow) :=
  if g_strcmp0_eq keyword (Some EmptyString) then Some store
  else
    scan_groups keyword history_actions search_show_unavailable groups
      (add_history history_actions store).

(** *** Confirming the selection *)

Inductive GtkSelectionMode : Type :=
| GTK_SELECTION_NONE
| GTK_SELECTION_SINGLE
| GTK_SELECTION_BROWSE
| GTK_SELECTION_MULTIPLE.

(** The session, as [action_search_run_selected] sees it through
    [private]: [dialog] tells whether the window [private->dialog] still
    exists; [results_list] is the list store of the tree view
    [private->results_list]; [selection_mode] and [selection] are the mode
    of the selection of that view and the index of the selected row;
    [activated] lists the actions whose activation callback has run, oldest
    first.  A new tree view starts in GTK_SELECTION_SINGLE and the file sets
    no other mode. *)
Record SearchDialog : Type := {
  dialog : bool;
  results_list : list ResultRow;
  selection_mode : GtkSelectionMode;
  selection : option nat;
  activated : list GtkAction
}.

(** [gtk_tree_selection_set_mode] towards GTK_SELECTION_SINGLE, from a
    selection that holds at most one row: the row stays selected. *)
Definition gtk_tree_selection_set_mode (mode : GtkSelectionMode)
    (private : SearchDialog) : SearchDialog :=
  {| dialog := dialog private;
     results_list := results_list private;
     selection_mode := mode;
     selection := selection private;
     activated := activated private |}.

(** [gtk_tree_selection_get_selected]: the selected row, if there is one. *)
Definition gtk_tree_selection_get_selected (private : SearchDialog)
  : option ResultRow :=
  match selection private with
  | Some i => nth_error (results_list private) i
  | None => None
  end.

(** [gtk_action_activate]: the activation callback runs. *)
Definition gtk_action_activate (action : GtkAction)
    (private : SearchDialog) : SearchDialog :=
  {| dialog := dialog private;
     results_list := results_list private;
     selection_mode := selection_mode private;
     selection := selection private;
     activated := activated private ++ [action] |}.

(** [action_search_finalizer]: [gtk_widget_destroy (private->dialog)]. *)
Definition action_search_finalizer (private : SearchDialog) : SearchDialog :=
  {| dialog := false;
     results_list := results_list private;
     selection_mode := selection_mode private;
     selection := selection private;
     activated := activated private |}.

(** [action_search_run_selected].  The sensitivity is read from the action
    the row refers to, not from the IS_SENSITIVE column. *)
Definition action_search_run_selected (private : SearchDialog)
  : SearchDialog :=
  let private := gtk_tree_selection_set_mode GTK_SELECTION_SINGLE private in
  match gtk_tree_selection_get_selected private with
  | Some row =>
      let action := RESULT_ACTION row in
      if negb (gtk_action_get_sensitive action) then private
      else action_search_finalizer (gtk_action_activate action private)
  | None => private
  end.

(** *** Notions the properties are stated with *)

(** [l] is what is left of [l'] after some of its first characters. *)
Definition tail_of (l l' : string) : Prop :=
  exists before, l' = (before ++ l)%string.

(** The sections of the rows, from top to bottom. *)
Definition sections (rows : list ResultRow) : list Z :=
  map RESULT_SECTION rows.

(** The rows of one section. *)
Definition in_section (s : Z) (r : ResultRow) : bool :=
  (RESULT_SECTION r =? s)%Z.

(** The test of [rows_named]. *)
Definition named (name : string) (r : ResultRow) : bool :=
  String.eqb (gtk_action_get_name (RESULT_ACTION r)) name.

(** The row of a history action. *)
Definition history_row (h : GtkAction) : ResultRow := row_of (h, 0%Z).

(** The run is defined when no keyword is given or every action of the
    catalogue has a label. *)
Definition can_scan (keyword : option string) (actions : list GtkAction)
  : Prop :=
  keyword = None \/ Forall (fun a => stripped_label a <> None) actions.

(** An action of the catalogue that the [list2] loop hands to the matcher:
    its name is not one of those passed over, and it is sensitive or the
    unavailable actions are to be shown. *)
Definition reaches_matcher (search_show_unavailable : bool)
    (action : GtkAction) : bool :=
  negb (skipped_name (gtk_action_get_name action)) &&
  (gtk_action_get_sensitive action || search_show_unavailable).

(** No call of the matcher reads through a NULL label: no keyword is
    given, or every action that is handed to the matcher has a label. *)
Definition reads_no_null_label (keyword : option string)
    (search_show_unavailable : bool) (actions : list GtkAction) : Prop :=
  keyword = None \/
  Forall (fun a => reaches_matcher search_show_unavailable a = true ->
                   stripped_label a <> None) actions.

End ActionSearch.

(** ** gimplanguagestore-parser.c *)

Module IsoCodes.

(** [gint]: the result of an increment or decrement, brought back into
    [-2^31, 2^31). *)
Definition gint (z : Z) : Z :=
  ((z + 2147483648) mod 4294967296 - 2147483648)%Z.

Inductive IsoCodesParserState : Type :=
| ISO_CODES_START
| ISO_CODES_IN_ENTRIES
| ISO_CODES_IN_ENTRY
| ISO_CODES_IN_UNKNOWN.

Definition state_eqb (a b : IsoCodesParserState) : bool :=
  match a, b with
  | ISO_CODES_START, ISO_CODES_START
  | ISO_CODES_IN_ENTRIES, ISO_CODES_IN_ENTRIES
  | ISO_CODES_IN_ENTRY, ISO_CODES_IN_ENTRY
  | ISO_CODES_IN_UNKNOWN, ISO_CODES_IN_UNKNOWN => true
  | _, _ => false
  end.

(** The language store: its (label, code) rows, oldest first. *)
Definition GimpLanguageStore : Type := list (string * string).

(** Modelled from the spec: [gimp_language_store_add] is in
    gimplanguagestore.c; a language entry is a (display name, ISO code)
    pair "appended to an external list-backed store". *)
Definition gimp_language_store_add (store : GimpLanguageStore)
    (label code : string) : GimpLanguageStore :=
  store ++ [(label, code)].

Record IsoCodesParser : Type := {
  state : IsoCodesParserState;
  last_known_state : IsoCodesParserState;
  unknown_depth : Z;
  store : GimpLanguageStore
}.

(** [IsoCodesParser parser = { 0, }] with [parser.store] set. *)
Definition parser_init (s : GimpLanguageStore) : IsoCodesParser :=
  {| state := ISO_CODES_START;
     last_known_state := ISO_CODES_START;
     unknown_depth := 0;
     store := s |}.

(** The process around the parser: the environment, the current locale, and
    the writes to the environment so far, oldest first (variable, and the
    new value or [None] for an unset). *)
Record Process : Type := {
  environ : string -> option string;
  locale : string;
  environ_writes : list (string * option string)
}.

Definition g_getenv (variable : string) (p : Process) : option string :=
  environ p variable.

Definition write_environ (variable : string) (value : option string)
    (p : Process) : Process :=
  {| environ := fun v => if String.eqb v variable then value else environ p v;
     locale := locale p;
     environ_writes := environ_writes p ++ [(variable, value)] |}.

(** [g_setenv (variable, value, TRUE)]. *)
Definition g_setenv (variable value : string) (p : Process) : Process :=
  write_environ variable (Some value) p.

Definition g_unsetenv (variable : string) (p : Process) : Process :=
  write_environ variable None p.

(** What libintl and the C library decide outside this file:
    [dgettext (domain, msgid)] as a function of the environment and the
    locale it runs in, and the locale that [setlocale] with an empty locale
    name selects from the environment. *)
Class Libintl : Type := {
  dgettext : (string -> option string) -> string -> string -> string -> string;
  native_locale : (string -> option string) -> string
}.

Section Parser.

Context `{Libintl}.

(** [setlocale] of LC_ALL with the empty locale name. *)
Definition setlocale_native (p : Process) : Process :=
  {| environ := environ p;
     locale := native_locale (environ p);
     environ_writes := environ_writes p |}.

(** [g_strndup (lang, semicolon - lang)]. *)
Definition g_strndup (s : string) (n : nat) : string := String.substring 0 n s.

Definition nonempty (s : string) : bool := negb (strlen s =? 0)%nat.

(** [gimp_language_store_self_l10n]. *)
Definition gimp_language_store_self_l10n (store : GimpLanguageStore)
    (lang code : option string) (p : Process)
  : GimpLanguageStore * Process :=
  match lang, code with
  | Some lang, Some code =>
      if nonempty lang && nonempty code then
        let '(lang, p) :=
          if negb (g_strcmp0_eq (Some code) (Some "en")) then
            let current_lang := g_getenv "LANGUAGE" p in
            let temp_lang :=
              match current_lang with
              | Some current =>
                  (code ++ ":" ++ current ++ ":" ++ locale p)%string
              | None => code
              end in
            let p := g_setenv "LANGUAGE" temp_lang p in
            let p := setlocale_native p in
            let lang := dgettext (environ p) (locale p) "iso_639" lang in
            let p :=
              match current_lang with
              | Some current => g_setenv "LANGUAGE" current p
              | None => g_unsetenv "LANGUAGE" p
              end in
            (lang, setlocale_native p)
          else (lang, p) in
        match strchr lang ";" with
        | Some semicolon =>
            let first := g_strndup lang (strlen lang - strlen semicolon) in
            (gimp_language_store_add store first code, p)
        | None => (gimp_language_store_add store lang code, p)
        end
      else (store, p)
  | _, _ => (store, p)
  end.

Definition is_null (s : option string) : bool :=
  match s with
  | None => true
  | Some _ => false
  end.

(** The [while] loop of [iso_codes_parser_entry] over the two arrays, which
    ends with the shorter one, with
    [lang] and [code] as they stand when an iteration starts. *)
Fixpoint entry_attributes (names values : list string)
    (lang code : option string) : option string * option string :=
  match names, values with
  | name :: names, value :: values =>
      if String.eqb name "name" then
        entry_attributes names values (Some value) code
      else if String.eqb name "iso_639_2B_code" && is_null code then
        entry_attributes names values lang (Some value)
      else if String.eqb name "iso_639_2T_code" && is_null code then
        entry_attributes names values lang (Some value)
      else if String.eqb name "iso_639_1_code" then
        entry_attributes names values lang (Some value)
      else entry_attributes names values lang code
  | _, _ => (lang, code)
  end.

(** The code [iso_codes_parser_entry] settles on. *)
Definition entry_code (names values : list string) : option string :=
  snd (entry_attributes names values None None).

Definition with_store (parser : IsoCodesParser) (s : GimpLanguageStore)
  : IsoCodesParser :=
  {| state := state parser;
     last_known_state := last_known_state parser;
     unknown_depth := unknown_depth parser;
     store := s |}.

Definition with_state (parser : IsoCodesParser) (s : IsoCodesParserState)
  : IsoCodesParser :=
  {| state := s;
     last_known_state := last_known_state parser;
     unknown_depth := unknown_depth parser;
     store := store parser |}.

(** [iso_codes_parser_entry]. *)
Definition iso_codes_parser_entry (parser : IsoCodesParser)
    (names values : list string) (p : Process) : IsoCodesParser * Process :=
  let '(lang, code) := entry_attributes names values None None in
  if g_strcmp0_eq code (Some "zh") then
    let '(s, p) :=
      gimp_language_store_self_l10n (store parser)
        (Some "Chinese") (Some "zh_CN") p in
    let '(s, p) :=
      gimp_language_store_self_l10n s (Some "Chinese") (Some "zh_TW") p in
    let '(s, p) :=
      gimp_language_store_self_l10n s (Some "Chinese") (Some "zh_HK") p in
    (with_store parser s, p)
  else
    let '(s, p) :=
      gimp_language_store_self_l10n (store parser) lang code p in
    (with_store parser s, p).

(** [iso_codes_parser_start_unknown]. *)
Definition iso_codes_parser_start_unknown (parser : IsoCodesParser)
  : IsoCodesParser :=
  {| state := ISO_CODES_IN_UNKNOWN;
     last_known_state :=
       if (unknown_depth parser =? 0)%Z then state parser
       else last_known_state parser;
     unknown_depth := gint (unknown_depth parser + 1);
     store := store parser |}.

(** [iso_codes_parser_end_unknown]; [None] when the [g_assert] fails and the
    program aborts. *)
Definition iso_codes_parser_end_unknown (parser : IsoCodesParser)
  : option IsoCodesParser :=
  if (unknown_depth parser >? 0)%Z &&
     state_eqb (state parser) ISO_CODES_IN_UNKNOWN then
    let depth := gint (unknown_depth parser - 1) in
    Some {| state :=
              if (depth =? 0)%Z then last_known_state parser
              else state parser;
            last_known_state := last_known_state parser;
            unknown_depth := depth;
            store := store parser |}
  else None.

(** The three labels of the [switch] of [iso_codes_parser_start_element];
    a case that does not [break] runs into the next one. *)
Definition start_case_in_entry (parser : IsoCodesParser) (p : Process)
  : IsoCodesParser * Process :=
  (iso_codes_parser_start_unknown parser, p).

Definition start_case_in_entries (element_name : string)
    (attribute_names attribute_values : list string)
    (parser : IsoCodesParser) (p : Process) : IsoCodesParser * Process :=
  if String.eqb element_name "iso_639_entry" then
    iso_codes_parser_entry (with_state parser ISO_CODES_IN_ENTRY)
      attribute_names attribute_values p
  else start_case_in_entry parser p.

Definition start_case_start (element_name : string)
    (attribute_names attribute_values : list string)
    (parser : IsoCodesParser) (p : Process) : IsoCodesParser * Process :=
  if String.eqb element_name "iso_639_entries" then
    (with_state parser ISO_CODES_IN_ENTRIES, p)
  else
    start_case_in_entries element_name attribute_names attribute_values
      parser p.

(** [iso_codes_parser_start_element]. *)
Definition iso_codes_parser_start_element (element_name : string)
    (attribute_names attribute_values : list string)
    (parser : IsoCodesParser) (p : Process) : IsoCodesParser * Process :=
  match state parser with
  | ISO_CODES_START =>
      start_case_start element_name attribute_names attribute_values
        parser p
  | ISO_CODES_IN_ENTRIES =>
      start_case_in_entries element_name attribute_names attribute_values
        parser p
  | ISO_CODES_IN_ENTRY
  | ISO_CODES_IN_UNKNOWN => start_case_in_entry parser p
  end.

(** [iso_codes_parser_end_element]; in ISO_CODES_START it only warns. *)
Definition iso_codes_parser_end_element (element_name : string)
    (parser : IsoCodesParser) : option IsoCodesParser :=
  match state parser with
  | ISO_CODES_START => Some parser
  | ISO_CODES_IN_ENTRIES => Some (with_state parser ISO_CODES_START)
  | ISO_CODES_IN_ENTRY => Some (with_state parser ISO_CODES_IN_ENTRIES)
  | ISO_CODES_IN_UNKNOWN => iso_codes_parser_end_unknown parser
  end.

(** The events the markup parser delivers. *)
Inductive event : Type :=
| START_ELEMENT (element_name : string)
                (attribute_names attribute_values : list string)
| END_ELEMENT (element_name : string).

Definition handle (e : event) (parser : IsoCodesParser) (p : Process)
  : option (IsoCodesParser * Process) :=
  match e with
  | START_ELEMENT element_name attribute_names attribute_values =>
      Some (iso_codes_parser_start_element element_name attribute_names
              attribute_values parser p)
  | END_ELEMENT element_name =>
      match iso_codes_parser_end_element element_name parser with
      | Some parser => Some (parser, p)
      | None => None
      end
  end.

(** The parser after a sequence of events; [None] once an assertion has
    failed. *)
Fixpoint run (events : list event) (parser : IsoCodesParser) (p : Process)
  : option (IsoCodesParser * Process) :=
  match events with
  | [] => Some (parser, p)
  | e :: rest =>
      match handle e parser p with
      | Some (parser, p) => run rest parser p
      | None => None
      end
  end.

End Parser.

(** The code the specification's priority list names: the value of
    iso_639_2B_code if the entry has one, else of iso_639_2T_code, else of
    iso_639_1_code. *)
Fixpoint attribute (wanted : string) (names values : list string)
  : option string :=
  match names, values with
  | name :: names, value :: values =>
      if String.eqb name wanted then Some value
      else attribute wanted names values
  | _, _ => None
  end.

Definition code_by_2B_2T_1 (names values : list string) : option string :=
  match attribute "iso_639_2B_code" names values with
  | Some code => Some code
  | None =>
      match attribute "iso_639_2T_code" names values with
      | Some code => Some code
      | None => attribute "iso_639_1_code" names values
      end
  end.

(** What the loop computes, said without the loop: the last iso_639_1_code
    attribute if there is one, else the first attribute named
    iso_639_2B_code or iso_639_2T_code. *)
Fixpoint last_attribute (wanted : string) (names values : list string)
  : option string :=
  match names, values with
  | name :: names, value :: values =>
      match last_attribute wanted names values with
      | Some later => Some later
      | None => if String.eqb name wanted then Some value else None
      end
  | _, _ => None
  end.

Fixpoint first_three_letter_code (names values : list string)
  : option string :=
  match names, values with
  | name :: names, value :: values =>
      if String.eqb name "iso_639_2B_code" ||
         String.eqb name "iso_639_2T_code"
      then Some value
      else first_three_letter_code names values
  | _, _ => None
  end.

(** The number of elements open after a sequence of events, from [open]
    open ones; [None] if an end-tag comes with no element open. *)
Fixpoint open_elements (events : list event) (open : nat) : option nat :=
  match events with
  | [] => Some open
  | START_ELEMENT _ _ _ :: rest => open_elements rest (S open)
  | END_ELEMENT _ :: rest =>
      match open with
      | O => None
      | S open => open_elements rest open
      end
  end.

(** Every end-tag closes an element opened before it and none stays open. *)
Definition balanced (events : list event) : Prop :=
  open_elements events 0 = Some 0%nat.

(** The number of elements open after one more event; an end-tag that comes
    with no element open closes nothing. *)
Definition opens (e : event) (open : nat) : nat :=
  match e with
  | START_ELEMENT _ _ _ => S open
  | END_ELEMENT _ => Nat.pred open
  end.


(** The largest number of elements open at once in the course of a sequence
    of events: how deep the document nests. *)
Fixpoint deepest (events : list event) (open : nat) : nat :=
  match events with
  | [] => open
  | e :: rest => Nat.max open (deepest rest (opens e open))
  end.


(** The state the parser is in or, while it skips, will come back to. *)
Definition known_state (parser : IsoCodesParser) : IsoCodesParserState :=
  if state_eqb (state parser) ISO_CODES_IN_UNKNOWN
  then last_known_state parser
  else state parser.

(** The number of recognised elements a known state stands for at most. *)
Definition level (s : IsoCodesParserState) : Z :=
  match s with
  | ISO_CODES_START => 0
  | ISO_CODES_IN_ENTRIES => 1
  | ISO_CODES_IN_ENTRY => 2
  | ISO_CODES_IN_UNKNOWN => 0
  end.

(** What holds of the parser after [n] events or fewer: the parser is in
    ISO_CODES_IN_UNKNOWN exactly when the depth is positive, the depth is at
    most [n], and the state kept aside is a known one. *)
Definition control_inv (n : Z) (parser : IsoCodesParser) : Prop :=
  (0 <= unknown_depth parser <= n)%Z /\
  (state parser = ISO_CODES_IN_UNKNOWN <-> (0 < unknown_depth parser)%Z) /\
  last_known_state parser <> ISO_CODES_IN_UNKNOWN.

(** With [open] elements open, those not being skipped are no more than
    the known state accounts for. *)
Definition nesting_inv (parser : IsoCodesParser) (open : nat) : Prop :=
  (Z.of_nat open - unknown_depth parser <= level (known_state parser))%Z.


(** The value LANGUAGE is given for the lookup. *)
Definition temporary_language (code : string) (p : Process) : string :=
  match g_getenv "LANGUAGE" p with
  | Some current => (code ++ ":" ++ current ++ ":" ++ locale p)%string
  | None => code
  end.

(** A libintl that has no catalogue: every message is left as it is. *)
Definition no_catalogue : Libintl :=
  {| dgettext := fun _ _ _ msgid => msgid;
     native_locale := fun _ => "C" |}.

End IsoCodes.

(** ** Notions for the further properties of the matcher *)

Module MatcherNotions.

Import ActionSearch.



(** Two bytes that are the same, or the upper-case and the lower-case form
    of one ASCII letter. *)
Definition same_letter (c d : ascii) : Prop :=
  c = d \/
  (isupper c = true /\ nat_of_ascii d = (nat_of_ascii c + 32)%nat) \/
  (isupper d = true /\ nat_of_ascii c = (nat_of_ascii d + 32)%nat).

(** Two strings that differ in the case of their letters at most. *)
Inductive same_up_to_case : string -> string -> Prop :=
| same_case_empty : same_up_to_case EmptyString EmptyString
| same_case_char : forall c d s t,
    same_letter c d -> same_up_to_case s t ->
    same_up_to_case (String c s) (String d t).




End MatcherNotions.

(** ** Notions for the further properties of the results list *)

Module ResultsNotions.

Import ActionSearch.

(** A string of white space only, the empty string among them. *)
Fixpoint is_blank (s : string) : bool :=
  match s with
  | EmptyString => true
  | String c rest => g_ascii_isspace c && is_blank rest
  end.

(** The call of [action_search_add_to_results_list] that the body of the
    [list2] loop makes for an action, if it makes one. *)
Definition catalogue_call (keyword : option string)
    (history_actions : list GtkAction) (search_show_unavailable : bool)
    (action : GtkAction) : list (GtkAction * Z) :=
  if skipped_name (gtk_action_get_name action) then []
  else if negb (gtk_action_get_sensitive action) &&
          negb search_show_unavailable then []
  else
    match action_search_match_keyword action keyword with
    | Some (MATCH section) =>
        if is_redundant history_actions (gtk_action_get_name action) then []
        else [(action, section)]
    | _ => []
    end.

(** The calls of the scan of the catalogue, in the order of the scan. *)
Definition catalogue_calls (keyword : option string)
    (history_actions : list GtkAction) (search_show_unavailable : bool)
    (groups : list (list GtkAction)) : list (GtkAction * Z) :=
  flat_map (catalogue_call keyword history_actions search_show_unavailable)
    (List.concat groups).

(** The calls of the first loop. *)
Definition history_calls (history_actions : list GtkAction)
  : list (GtkAction * Z) :=
  map (fun h => (h, 0%Z)) history_actions.

(** The calls of a whole search, in the order they are made: none for the
    empty keyword, on which [action_search_history_and_actions] returns at
    once; else those of the first loop and then those of the scan. *)
Definition search_calls (keyword : option string)
    (history_actions : list GtkAction) (search_show_unavailable : bool)
    (groups : list (list GtkAction)) : list (GtkAction * Z) :=
  if g_strcmp0_eq keyword (Some EmptyString) then []
  else history_calls history_actions ++
       catalogue_calls keyword history_actions search_show_unavailable groups.

(** An action of the catalogue that the scan lists when no keyword is
    given. *)
Definition shown_without_keyword (history_actions : list GtkAction)
    (search_show_unavailable : bool) (action : GtkAction) : bool :=
  negb (skipped_name (gtk_action_get_name action)) &&
  (gtk_action_get_sensitive action || search_show_unavailable) &&
  negb (is_redundant history_actions (gtk_action_get_name action)) &&
  has_label action.


End ResultsNotions.

(** ** action-search-dialog.c: the window and the key events *)

Module SearchWindow.

Import ActionSearch.

(** The [gint] of [IsoCodes]: the result of a sum or difference. *)
Definition gint : Z -> Z := IsoCodes.gint.

(** The fields of [GimpGuiConfig] the dialog reads and writes. *)
Record GimpGuiConfig : Type := {
  search_show_unavailable : bool;
  search_dialog_x : Z;
  search_dialog_y : Z;
  search_dialog_width : Z;
  search_dialog_height : Z;
  search_dialog_opacity : Z
}.

Definition with_opacity (config : GimpGuiConfig) (opacity : Z)
  : GimpGuiConfig :=
  {| search_show_unavailable := search_show_unavailable config;
     search_dialog_x := search_dialog_x config;
     search_dialog_y := search_dialog_y config;
     search_dialog_width := search_dialog_width config;
     search_dialog_height := search_dialog_height config;
     search_dialog_opacity := opacity |}.

Definition with_geometry (config : GimpGuiConfig) (x y width height : Z)
  : GimpGuiConfig :=
  {| search_show_unavailable := search_show_unavailable config;
     search_dialog_x := x;
     search_dialog_y := y;
     search_dialog_width := width;
     search_dialog_height := height;
     search_dialog_opacity := search_dialog_opacity config |}.

(** *** [window_scrolled] *)

Inductive GdkScrollDirection : Type :=
| GDK_SCROLL_UP
| GDK_SCROLL_DOWN
| GDK_SCROLL_LEFT
| GDK_SCROLL_RIGHT.

(** A scroll event: is GDK_CONTROL_MASK set in its state, and its
    direction. *)
Record GdkEventScroll : Type := {
  control : bool;
  direction : GdkScrollDirection
}.

(** The configuration and the opacity of the window, in hundredths: the
    numerator of the value last given to [gtk_window_set_opacity]. *)
Record Opacity : Type := {
  opacity_config : GimpGuiConfig;
  opacity_window : Z
}.

(** [window_scrolled]: the value returned and the state after it. *)
Definition window_scrolled (scroll : GdkEventScroll) (s : Opacity)
  : bool * Opacity :=
  if control scroll then
    let config := opacity_config s in
    let new_opacity :=
      match direction scroll with
      | GDK_SCROLL_UP =>
          Z.min (gint (search_dialog_opacity config + 5)) 100
      | GDK_SCROLL_DOWN =>
          Z.max (gint (search_dialog_opacity config - 5)) 10
      | _ => search_dialog_opacity config
      end in
    if negb (new_opacity =? search_dialog_opacity config)%Z then
      (true, {| opacity_config := with_opacity config new_opacity;
                opacity_window := new_opacity |})
    else (true, s)
  else (false, s).

(** The state after a run of scroll events. *)
Fixpoint scrolled (scrolls : list GdkEventScroll) (s : Opacity) : Opacity :=
  match scrolls with
  | [] => s
  | scroll :: rest => scrolled rest (snd (window_scrolled scroll s))
  end.

(** The opacity is between 10 and 100 and the window shows it. *)
Definition opacity_ok (s : Opacity) : Prop :=
  (10 <= search_dialog_opacity (opacity_config s) <= 100)%Z /\
  opacity_window s = search_dialog_opacity (opacity_config s).

(** *** [action_search_update_position] *)

(** What GDK reports: the geometry of the active window and the size of the
    screen. *)
Record GdkGeometry : Type := {
  parent_x : Z;
  parent_y : Z;
  parent_width : Z;
  parent_height : Z;
  screen_width : Z;
  screen_height : Z
}.

(** What the dialog window is asked for: its default size and its place. *)
Record WindowRequest : Type := {
  default_width : Z;
  default_height : Z;
  move_x : Z;
  move_y : Z
}.

(** [action_search_update_position]: the configuration after it and the
    calls of [gtk_window_set_default_size] and [gtk_window_move]. *)
Definition action_search_update_position (g : GdkGeometry)
    (config : GimpGuiConfig) : GimpGuiConfig * WindowRequest :=
  let width :=
    if (search_dialog_width config <? 0)%Z then Z.quot (parent_width g) 2
    else if (search_dialog_width config >? screen_width g)%Z
         then parent_width g
         else search_dialog_width config in
  let height :=
    if (search_dialog_height config <? 0)%Z then Z.quot (parent_height g) 2
    else if (search_dialog_height config >? screen_height g)%Z
         then parent_height g
         else search_dialog_height config in
  let x :=
    if (search_dialog_x config <? 0)%Z ||
       (gint (search_dialog_x config + width) >? screen_width g)%Z
    then gint (parent_x g + Z.quot (gint (parent_width g - width)) 2)
    else search_dialog_x config in
  let y :=
    if (search_dialog_y config <? 0)%Z ||
       (gint (search_dialog_y config + height) >? screen_height g)%Z
    then gint (parent_y g + Z.quot (gint (parent_height g - height)) 2)
    else search_dialog_y config in
  (with_geometry config x y width height,
   {| default_width := width; default_height := 1;
      move_x := x; move_y := y |}).

(** *** [window_configured] *)

(** What [window_configured] reads: is the event a GDK_CONFIGURE, is the
    window visible, its position and size, and is the list view visible. *)
Record ConfigureEvent : Type := {
  is_configure : bool;
  window_visible : bool;
  position_x : Z;
  position_y : Z;
  size_width : Z;
  size_height : Z;
  list_view_visible : bool
}.

(** [window_configured]: the configuration after it; it returns FALSE. *)
Definition window_configured (e : ConfigureEvent) (config : GimpGuiConfig)
  : GimpGuiConfig :=
  if is_configure e && window_visible e then
    let x := if (position_x e <? 0)%Z then 0%Z else position_x e in
    let y := if (position_y e <? 0)%Z then 0%Z else position_y e in
    with_geometry config x y (size_width e)
      (if list_view_visible e then size_height e
       else search_dialog_height config)
  else config.

(** *** [key_released] *)

Inductive keyval : Type :=
| GDK_Escape
| GDK_Return
| GDK_Up
| GDK_Down
| GDK_other_key.

(** What the dialog asks of the application: the history actions
    [gimp_action_history_search] returns for a keyword, and the action
    groups of the manager, each with its actions as [g_list_sort] leaves
    them. *)
Record Registry : Type := {
  gimp_action_history_search : option string -> list GtkAction;
  action_groups : list (list GtkAction)
}.

(** The dialog as [key_released] sees it: the session of
    [action_search_run_selected], the configuration, whether the list view
    is shown, and the size last asked for with [gtk_window_resize]. *)
Record Dialog : Type := {
  private : SearchDialog;
  config : GimpGuiConfig;
  list_view_shown : bool;
  window_width : Z;
  window_height : Z
}.

Definition with_private (d : Dialog) (s : SearchDialog) : Dialog :=
  {| private := s;
     config := config d;
     list_view_shown := list_view_shown d;
     window_width := window_width d;
     window_height := window_height d |}.

(** [gtk_list_store_clear] and then the rows of a search, with
    [gtk_tree_selection_select_path] for the path "0": the first row is
    selected if there is one. *)
Definition with_results (s : SearchDialog) (rows : list ResultRow)
  : SearchDialog :=
  {| dialog := dialog s;
     results_list := rows;
     selection_mode := selection_mode s;
     selection := match rows with
                  | [] => None
                  | _ :: _ => Some 0%nat
                  end;
     activated := activated s |}.

(** The two branches of [key_released] that search: the window is resized
    to the configured height, the list is cleared and shown, the search
    fills it and its first row is selected.  [None] when the search is
    undefined. *)
Definition search_and_show (registry : Registry) (keyword : option string)
    (d : Dialog) : option Dialog :=
  match
    action_search_history_and_actions keyword
      (gimp_action_history_search registry keyword)
      (action_groups registry)
      (search_show_unavailable (config d)) []
  with
  | Some rows =>
      Some {| private := with_results (private d) rows;
              config := config d;
              list_view_shown := true;
              window_width := window_width d;
              window_height := search_dialog_height (config d) |}
  | None => None
  end.

(** [key_released], for the text in the entry and the key released. *)
Definition key_released (registry : Registry) (entry_text : string)
    (key : keyval) (d : Dialog) : option Dialog :=
  match key with
  | GDK_Escape => Some (with_private d (action_search_finalizer (private d)))
  | GDK_Return =>
      Some (with_private d (action_search_run_selected (private d)))
  | _ =>
      if negb (String.eqb entry_text EmptyString) then
        search_and_show registry (Some entry_text) d
      else
        match key with
        | GDK_Down => search_and_show registry None d
        | _ =>
            Some {| private := private d;
                    config := config d;
                    list_view_shown := false;
                    window_width := window_width d;
                    window_height := 1 |}
        end
  end.

(** The parent window lies on the screen, and the screen is smaller than
    2^30 each way. *)
Definition parent_on_screen (g : GdkGeometry) : Prop :=
  (0 <= parent_x g)%Z /\ (0 <= parent_width g)%Z /\
  (parent_x g + parent_width g <= screen_width g)%Z /\
  (0 <= parent_y g)%Z /\ (0 <= parent_height g)%Z /\
  (parent_y g + parent_height g <= screen_height g)%Z /\
  (screen_width g < 1073741824)%Z /\ (screen_height g < 1073741824)%Z.

(** A place and a size that lie on the screen. *)
Definition on_screen (g : GdkGeometry) (x y width height : Z) : Prop :=
  (0 <= x)%Z /\ (0 <= width)%Z /\ (x + width <= screen_width g)%Z /\
  (0 <= y)%Z /\ (0 <= height)%Z /\ (y + height <= screen_height g)%Z.

End SearchWindow.

(** ** gimplanguagestore-parser.c: a whole parse *)

Module IsoCodesParse.

Import IsoCodes.

(** The part of a string before its first semicolon; the whole string when
    it has none. *)
Fixpoint first_segment (s : string) : string :=
  match s with
  | EmptyString => EmptyString
  | String c rest =>
      if Ascii.eqb c ";" then EmptyString else String c (first_segment rest)
  end.

Fixpoint has_semicolon (s : string) : bool :=
  match s with
  | EmptyString => false
  | String c rest => Ascii.eqb c ";" || has_semicolon rest
  end.

(** A row as the parser adds them: the label has no semicolon and the code
    is not empty. *)
Definition well_formed_row (row : string * string) : Prop :=
  has_semicolon (fst row) = false /\ snd row <> EmptyString.

(** An entry element of a document: its attributes and the events of what
    it contains. *)
Record entry_element : Type := {
  entry_names : list string;
  entry_values : list string;
  entry_children : list event
}.

Definition entry_events (e : entry_element) : list event :=
  START_ELEMENT "iso_639_entry" (entry_names e) (entry_values e) ::
  entry_children e ++ [END_ELEMENT "iso_639_entry"].

(** The events of a document: the root element iso_639_entries around the
    entry elements. *)
Definition document_events (root_names root_values : list string)
    (entries : list entry_element) : list event :=
  START_ELEMENT "iso_639_entries" root_names root_values ::
  flat_map entry_events entries ++ [END_ELEMENT "iso_639_entries"].

(** An element whose children are balanced and fewer than 2^31 events. *)
Definition entry_well_nested (e : entry_element) : Prop :=
  balanced (entry_children e) /\
  (Z.of_nat (List.length (entry_children e)) < 2147483648)%Z.

(** The parser is skipping in an entry, [k] elements deep; at depth 0 it is
    in the entry itself. *)
Definition skipping_in_entry (parser : IsoCodesParser) (k : nat) : Prop :=
  unknown_depth parser = Z.of_nat k /\
  match k with
  | O => state parser = ISO_CODES_IN_ENTRY
  | S _ => state parser = ISO_CODES_IN_UNKNOWN /\
           last_known_state parser = ISO_CODES_IN_ENTRY
  end.

Section Parse.

Context `{Libintl}.

(** The name the lookup of [gimp_language_store_self_l10n] gives: the name
    itself for the code "en", the answer of [dgettext] under the temporary
    LANGUAGE and the native locale otherwise. *)
Definition looked_up (lang code : string) (p : Process) : string :=
  if negb (g_strcmp0_eq (Some code) (Some "en")) then
    let p := setlocale_native (g_setenv "LANGUAGE"
                                 (temporary_language code p) p) in
    dgettext (environ p) (locale p) "iso_639" lang
  else lang.

(** The store and the process after the entries of a document, taken one
    after the other by [iso_codes_parser_entry]. *)
Fixpoint add_entries (entries : list entry_element)
    (s : GimpLanguageStore) (p : Process) : GimpLanguageStore * Process :=
  match entries with
  | [] => (s, p)
  | e :: rest =>
      let '(parser, p) :=
        iso_codes_parser_entry (parser_init s) (entry_names e)
          (entry_values e) p in
      add_entries rest (store parser) p
  end.

(** *** [iso_codes_parser_init] and [gimp_language_store_parse_iso_codes] *)

(** What libintl has been told: has [iso_codes_parser_init] run (its static
    [initialized]), and the calls of [bindtextdomain] and
    [bind_textdomain_codeset] so far, oldest first. *)
Record Textdomains : Type := {
  initialized : bool;
  bindtextdomain_calls : list (string * string);
  bind_textdomain_codeset_calls : list (string * string)
}.

(** [iso_codes_parser_init]; [localedir] is ISO_CODES_LOCALEDIR, or what
    [gimp_locale_directory] returns on Win32. *)
Definition iso_codes_parser_init (localedir : string) (t : Textdomains)
  : Textdomains :=
  if initialized t then t
  else
    {| initialized := true;
       bindtextdomain_calls :=
         bindtextdomain_calls t ++ [("iso_639", localedir)];
       bind_textdomain_codeset_calls :=
         bind_textdomain_codeset_calls t ++ [("iso_639", "UTF-8")] |}.

(** What [gimp_xml_parser_parse_file] does with the file: the events it
    delivers to the two handlers, and its verdict. *)
Record XmlFile : Type := {
  file_events : list event;
  file_success : bool
}.

(** The outcome of [gimp_language_store_parse_iso_codes]: the value
    returned, the store, and the state of libintl and of the process. *)
Record ParseOutcome : Type := {
  success : bool;
  outcome_store : GimpLanguageStore;
  outcome_textdomains : Textdomains;
  outcome_process : Process
}.

(** [gimp_language_store_parse_iso_codes].  [have_iso_codes] tells whether
    HAVE_ISO_CODES is defined; [is_language_store] and [error_is_clear] are
    the two conditions of the [g_return_val_if_fail] lines.  [None] when an
    assertion of the handlers fails. *)
Definition gimp_language_store_parse_iso_codes (have_iso_codes : bool)
    (is_language_store error_is_clear : bool) (localedir : string)
    (file : XmlFile) (s : GimpLanguageStore) (t : Textdomains) (p : Process)
  : option ParseOutcome :=
  if have_iso_codes then
    if negb is_language_store then
      Some {| success := false; outcome_store := s;
              outcome_textdomains := t; outcome_process := p |}
    else if negb error_is_clear then
      Some {| success := false; outcome_store := s;
              outcome_textdomains := t; outcome_process := p |}
    else
      let t := iso_codes_parser_init localedir t in
      match run (file_events file) (parser_init s) p with
      | Some (parser, p) =>
          Some {| success := file_success file;
                  outcome_store := store parser;
                  outcome_textdomains := t;
                  outcome_process := p |}
      | None => None
      end
  else
    Some {| success := true; outcome_store := s;
            outcome_textdomains := t; outcome_process := p |}.

End Parse.

End IsoCodesParse.

(** * Properties *)

(** ** Strings *)

Module LibcFacts.

Lemma strchr_found (s : string) (c : ascii) (r : string) :
  strchr s c = Some r ->
  exists before rest,
    s = (before ++ String c rest)%string /\ r = String c rest.
Proof.
  induction s as [|a s IH]; simpl; [discriminate|].
  destruct (Ascii.eqb a c) eqn:E.
  - intros [= <-]. apply Ascii.eqb_eq in E; subst a.
    exists EmptyString, s. split; reflexivity.
  - intros Hs. destruct (IH Hs) as (before & rest & -> & ->).
    exists (String a before), rest. split; reflexivity.
Qed.



End LibcFacts.

(** ** The keyword matcher *)

Module ActionSearchFacts.

Import ActionSearch LibcFacts.

Example match_gaussian_blur_gb :
  action_search_match_keyword
    {| gtk_action_get_name := "filters-gaussian-blur";
       stripped_label := Some "Gaussian Blur...";
       gtk_action_get_tooltip := None;
       gtk_action_get_sensitive := true |} (Some "gb") = Some (MATCH 1).
Proof. reflexivity. Qed.

Example match_feather_selection_ftr :
  action_search_match_keyword
    {| gtk_action_get_name := "select-feather";
       stripped_label := Some "Feather Selection";
       gtk_action_get_tooltip := None;
       gtk_action_get_sensitive := true |} (Some "ftr") = Some (MATCH 4).
Proof. reflexivity. Qed.

Lemma tail_of_refl l : tail_of l l.
Proof. exists EmptyString. reflexivity. Qed.

Lemma tail_of_cons c l l' : tail_of l l' -> tail_of l (String c l').
Proof. intros [b ->]. exists (String c b). reflexivity. Qed.

Lemma tail_of_trans a b c : tail_of a b -> tail_of b c -> tail_of a c.
Proof.
  intros [x ->] [y ->]. exists (y ++ x)%string.
  induction y as [|ch y IH]; simpl; [reflexivity | now rewrite IH].
Qed.

Lemma subsequence_tail k l l' :
  tail_of l l' -> subsequence k l -> subsequence k l'.
Proof.
  intros [before ->] Hk.
  induction before as [|c before IH]; simpl; [assumption|].
  now apply subsequence_skip.
Qed.

(** The leftmost occurrence leaves the longest rest: whatever [strchr] finds
    in a tail of [l'], the rest after the occurrence found in [l'] itself
    contains the rest after that one. *)
Lemma strchr_tail c l l' r :
  tail_of l l' -> strchr l c = Some r ->
  exists r', strchr l' c = Some r' /\ tail_of (next_char r) (next_char r').
Proof.
  intros [before ->] Hr.
  induction before as [|a before IH]; simpl.
  - exists r. split; [assumption | apply tail_of_refl].
  - destruct (Ascii.eqb a c) eqn:E.
    + eexists; split; [reflexivity|]. simpl.
      destruct IH as (r' & Hr' & Ht).
      apply strchr_found in Hr'. destruct Hr' as (b & rest & Heq & ->).
      simpl in Ht. eapply tail_of_trans; [exact Ht|].
      rewrite Heq. exists (b ++ String c EmptyString)%string.
      clear. induction b as [|x b IHb]; simpl; [reflexivity | now rewrite IHb].
    + exact IH.
Qed.

Lemma fuzzy_match_tail k : forall l l',
  tail_of l l' -> action_fuzzy_match l k = true ->
  action_fuzzy_match l' k = true.
Proof.
  induction k as [|c k IH]; intros l l' Ht; simpl; [reflexivity|].
  destruct (strchr l c) as [r|] eqn:Hr; [|discriminate].
  destruct (strchr_tail _ _ _ _ Ht Hr) as (r' & -> & Ht').
  now apply IH.
Qed.

Lemma fuzzy_match_sound k : forall l,
  action_fuzzy_match l k = true -> subsequence k l.
Proof.
  induction k as [|c k IH]; intros l; simpl.
  - intros _. apply subsequence_empty.
  - destruct (strchr l c) as [r|] eqn:Hr; [|discriminate].
    intros Hm. apply IH in Hm.
    destruct (strchr_found _ _ _ Hr) as (before & rest & -> & ->).
    simpl in Hm.
    apply subsequence_tail with (l := String c rest).
    + now exists before.
    + now apply subsequence_take.
Qed.

Lemma fuzzy_match_complete k l :
  subsequence k l -> action_fuzzy_match l k = true.
Proof.
  induction 1 as [l | c k l _ IH | c k l _ IH].
  - reflexivity.
  - apply fuzzy_match_tail with (l := l); [|assumption].
    apply tail_of_cons, tail_of_refl.
  - simpl. now rewrite Ascii.eqb_refl.
Qed.

(** C4.  The recursive matcher answers TRUE exactly when the key is a
    subsequence of the string: every character of the key occurs in the
    string, in the same order, not necessarily next to each other.  Taking
    the leftmost occurrence each time loses no match. *)
Theorem action_fuzzy_match_iff_subsequence (l k : string) :
  action_fuzzy_match l k = true <-> subsequence k l.
Proof.
  split; [apply fuzzy_match_sound | apply fuzzy_match_complete].
Qed.

(** *** The two-letter rule *)









(** ** The results list *)

Lemma insert_by_section_Forall (P : Z -> Prop) new : forall rows,
  P (RESULT_SECTION new) -> Forall P (sections rows) ->
  Forall P (sections (insert_by_section new rows)).
Proof.
  induction rows as [|r rows IH]; intros Hn Hr; simpl.
  - constructor; [assumption | constructor].
  - destruct (RESULT_SECTION r >? RESULT_SECTION new)%Z; simpl.
    + constructor; assumption.
    + inversion Hr; subst. constructor; [assumption | now apply IH].
Qed.

Lemma insert_by_section_sorted new : forall rows,
  StronglySorted Z.le (sections rows) ->
  StronglySorted Z.le (sections (insert_by_section new rows)).
Proof.
  induction rows as [|r rows IH]; intros Hs; simpl.
  - constructor; constructor.
  - inversion Hs as [|x l Hs' Hle]; subst.
    destruct (RESULT_SECTION r >? RESULT_SECTION new)%Z eqn:E; simpl.
    + constructor; [exact Hs|].
      apply Z.gtb_lt in E.
      constructor; [lia|].
      eapply Forall_impl; [|exact Hle]. intros; simpl in *; lia.
    + constructor; [now apply IH|].
      apply insert_by_section_Forall; [|assumption].
      rewrite Z.gtb_ltb in E. apply Z.ltb_ge in E. exact E.
Qed.

Lemma filter_above (s : Z) : forall rows,
  Forall (fun x => (s < x)%Z) (sections rows) ->
  filter (in_section s) rows = [].
Proof.
  induction rows as [|r rows IH]; intros Hr; simpl; [reflexivity|].
  inversion Hr; subst. unfold in_section at 1.
  destruct (Z.eqb_spec (RESULT_SECTION r) s); [lia | now apply IH].
Qed.

(** A new row goes after the rows of its own section. *)
Lemma filter_insert_same new : forall rows,
  StronglySorted Z.le (sections rows) ->
  filter (in_section (RESULT_SECTION new)) (insert_by_section new rows)
  = filter (in_section (RESULT_SECTION new)) rows ++ [new].
Proof.
  induction rows as [|r rows IH]; intros Hs.
  - simpl. unfold in_section. now rewrite Z.eqb_refl.
  - cbn [insert_by_section].
    inversion Hs as [|x l Hs' Hle]; subst.
    destruct (RESULT_SECTION r >? RESULT_SECTION new)%Z eqn:E.
    + apply Z.gtb_lt in E.
      assert (Hf : filter (in_section (RESULT_SECTION new)) (r :: rows) = []).
      { apply filter_above. constructor; [exact E|].
        eapply Forall_impl; [|exact Hle]. intros; simpl in *; lia. }
      change (new :: r :: rows) with ([new] ++ (r :: rows)).
      rewrite filter_app, Hf. simpl.
      unfold in_section. now rewrite Z.eqb_refl.
    + simpl. rewrite (IH Hs').
      destruct (in_section (RESULT_SECTION new) r); reflexivity.
Qed.

(** The rows a test rejects the new row for are left as they were. *)
Lemma filter_insert_other (f : ResultRow -> bool) new : forall rows,
  f new = false ->
  filter f (insert_by_section new rows) = filter f rows.
Proof.
  induction rows as [|r rows IH]; intros Hf; simpl.
  - now rewrite Hf.
  - destruct (RESULT_SECTION r >? RESULT_SECTION new)%Z; simpl.
    + now rewrite Hf.
    + now rewrite (IH Hf).
Qed.

Lemma add_to_results_list_unfold action store section :
  action_search_add_to_results_list action store section
  = if has_label action
    then insert_by_section (row_of (action, section)) store
    else store.
Proof.
  unfold action_search_add_to_results_list, has_label, row_of.
  destruct (option_map g_strstrip (stripped_label action)) as [label|];
    [|reflexivity].
  destruct (strlen label =? 0)%nat; reflexivity.
Qed.

(** The vertical tab is no white space for GLib: [g_strstrip] keeps a label
    made of one, and the action gets its row; a label of the other white
    space characters gets none. *)
Example vertical_tab_label_gets_a_row :
  let tab := String (ascii_of_nat 11) EmptyString in
  let action :=
    {| gtk_action_get_name := "view-tab";
       stripped_label := Some tab;
       gtk_action_get_tooltip := None;
       gtk_action_get_sensitive := true |} in
  let blank :=
    {| gtk_action_get_name := "view-blank";
       stripped_label :=
         Some (String (ascii_of_nat 9)
                 (String (ascii_of_nat 10)
                    (String (ascii_of_nat 12)
                       (String (ascii_of_nat 13) " "))));
       gtk_action_get_tooltip := None;
       gtk_action_get_sensitive := true |} in
  g_strstrip tab = tab /\
  action_search_add_to_results_list action [] 1 = [row_of (action, 1%Z)] /\
  action_search_add_to_results_list blank [] 1 = [].
Proof. repeat split. Qed.

Lemma add_each_sorted_stable : forall calls store,
  StronglySorted Z.le (sections store) ->
  StronglySorted Z.le (sections (add_each calls store)) /\
  forall s,
    filter (in_section s) (add_each calls store)
    = filter (in_section s) store ++
      map row_of
        (filter (fun c => (snd c =? s)%Z && has_label (fst c)) calls).
Proof.
  induction calls as [|[action section] calls IH]; intros store Hs.
  - split; [exact Hs|]. intros s. simpl. now rewrite app_nil_r.
  - cbn [add_each].
    rewrite add_to_results_list_unfold.
    destruct (has_label action) eqn:Hl.
    + destruct (IH (insert_by_section (row_of (action, section)) store))
        as [Hsorted Hstable]; [now apply insert_by_section_sorted|].
      split; [exact Hsorted|]. intros s. rewrite Hstable.
      cbn [filter fst snd]. rewrite Hl.
      destruct (Z.eqb_spec section s) as [->|Hne]; cbn [andb map].
      * change s with (RESULT_SECTION (row_of (action, s))) at 1 3.
        rewrite filter_insert_same by assumption.
        now rewrite <- app_assoc.
      * rewrite filter_insert_other; [reflexivity|].
        unfold in_section. simpl. now apply Z.eqb_neq.
    + destruct (IH store Hs) as [Hsorted Hstable].
      split; [exact Hsorted|]. intros s. rewrite Hstable.
      cbn [filter fst snd]. rewrite Hl, andb_false_r. reflexivity.
Qed.

(** C5.  After any run of calls of [action_search_add_to_results_list] on
    an empty list store, the sections of the rows never decrease from top
    to bottom, and the rows of each section are the calls that set a row of
    that section, in the order of the calls. *)
Theorem results_list_sorted_and_stable (calls : list (GtkAction * Z)) :
  StronglySorted Z.le (map RESULT_SECTION (add_each calls [])) /\
  forall s,
    filter (fun r => (RESULT_SECTION r =? s)%Z) (add_each calls [])
    = map row_of
        (filter (fun c => (snd c =? s)%Z && has_label (fst c)) calls).
Proof.
  destruct (add_each_sorted_stable calls []) as [Hsorted Hstable];
    [constructor|].
  split; [exact Hsorted|]. intros s. exact (Hstable s).
Qed.

(** ** History and catalogue *)

Lemma insert_by_section_last new : forall rows,
  Forall (fun x => (x <= RESULT_SECTION new)%Z) (sections rows) ->
  insert_by_section new rows = rows ++ [new].
Proof.
  induction rows as [|r rows IH]; intros Hr; simpl; [reflexivity|].
  inversion Hr; subst.
  destruct (Z.gtb_spec (RESULT_SECTION r) (RESULT_SECTION new)); [lia|].
  now rewrite IH.
Qed.

(** The first loop lists the history actions that have a label, in the
    order of the history, below the rows of section 0 already there. *)
Lemma add_history_rows : forall history_actions store,
  Forall (fun x => (x <= 0)%Z) (sections store) ->
  add_history history_actions store
  = store ++ map history_row (filter has_label history_actions).
Proof.
  induction history_actions as [|h rest IH]; intros store Hs; simpl.
  - now rewrite app_nil_r.
  - rewrite add_to_results_list_unfold.
    destruct (has_label h) eqn:Hl.
    + rewrite insert_by_section_last by exact Hs.
      rewrite IH.
      * simpl. now rewrite <- app_assoc.
      * unfold sections. rewrite map_app. apply Forall_app. split; [exact Hs|].
        constructor; [simpl; lia | constructor].
    + now apply IH.
Qed.

Lemma is_redundant_true history_actions name :
  is_redundant history_actions name = true <->
  exists h, In h history_actions /\ gtk_action_get_name h = name.
Proof.
  induction history_actions as [|h rest IH]; simpl.
  - split; [discriminate | intros (? & [] & _)].
  - destruct (String.eqb_spec (gtk_action_get_name h) name) as [E|E].
    + split; [intros _; exists h; auto | reflexivity].
    + rewrite IH. split.
      * intros (x & Hin & Hx). exists x. auto.
      * intros (x & [<- | Hin] & Hx); [contradiction | exists x; auto].
Qed.

(** The catalogue adds no row for a name the history holds. *)
Lemma scan_action_named keyword history_actions show action store store' name :
  is_redundant history_actions name = true ->
  scan_action keyword history_actions show action store = Some store' ->
  filter (named name) store' = filter (named name) store.
Proof.
  intros Hred. unfold scan_action.
  destruct (skipped_name _); [now intros [= <-]|].
  destruct (_ && _); [now intros [= <-]|].
  destruct (action_search_match_keyword action keyword) as [[|section]|];
    [now intros [= <-] | | discriminate].
  destruct (is_redundant history_actions (gtk_action_get_name action)) eqn:Hr;
    [now intros [= <-]|].
  intros [= <-]. rewrite add_to_results_list_unfold.
  destruct (has_label action); [|reflexivity].
  apply filter_insert_other. unfold named, row_of. simpl.
  apply String.eqb_neq. intros E. congruence.
Qed.

Lemma scan_actions_named keyword history_actions show name :
  is_redundant history_actions name = true ->
  forall actions store store',
    scan_actions keyword history_actions show actions store = Some store' ->
    filter (named name) store' = filter (named name) store.
Proof.
  intros Hred. induction actions as [|a actions IH]; intros store store'; simpl.
  - now intros [= <-].
  - destruct (scan_action keyword history_actions show a store)
      as [mid|] eqn:Ha; [|discriminate].
    intros Hrest. rewrite (IH _ _ Hrest).
    eapply scan_action_named; eassumption.
Qed.

Lemma scan_groups_named keyword history_actions show name :
  is_redundant history_actions name = true ->
  forall groups store store',
    scan_groups keyword history_actions show groups store = Some store' ->
    filter (named name) store' = filter (named name) store.
Proof.
  intros Hred. induction groups as [|g groups IH]; intros store store'; simpl.
  - now intros [= <-].
  - destruct (scan_actions keyword history_actions show g store)
      as [mid|] eqn:Hg; [|discriminate].
    intros Hrest. rewrite (IH _ _ Hrest).
    eapply scan_actions_named; eassumption.
Qed.

Lemma match_keyword_defined keyword action :
  keyword = None \/ stripped_label action <> None ->
  exists r, action_search_match_keyword action keyword = Some r.
Proof.
  unfold action_search_match_keyword.
  intros [-> | Hl]; [eexists; reflexivity|].
  destruct keyword as [k|]; [|eexists; reflexivity].
  destruct (stripped_label action) as [label|]; [|contradiction].
  destruct (initials_rule _ _); [eexists; reflexivity|].
  match goal with |- context [match ?b with NO_MATCH => _ | MATCH _ => _ end] =>
    destruct b end; [|eexists; reflexivity].
  destruct (action_fuzzy_match _ _); eexists; reflexivity.
Qed.

Lemma scan_actions_defined keyword history_actions show : forall actions store,
  can_scan keyword actions ->
  exists store',
    scan_actions keyword history_actions show actions store = Some store'.
Proof.
  induction actions as [|a actions IH]; intros store Hc; simpl.
  - eexists; reflexivity.
  - assert (Hrest : can_scan keyword actions).
    { destruct Hc as [-> | Hf]; [now left | right; now inversion Hf]. }
    assert (Ha : keyword = None \/ stripped_label a <> None).
    { destruct Hc as [-> | Hf]; [now left | right; now inversion Hf]. }
    destruct (match_keyword_defined keyword a Ha) as [r Hr].
    unfold scan_action. rewrite Hr.
    destruct (skipped_name _); [now apply IH|].
    destruct (_ && _); [now apply IH|].
    destruct r; [now apply IH|].
    destruct (is_redundant _ _); now apply IH.
Qed.

Lemma scan_groups_defined keyword history_actions show : forall groups store,
  can_scan keyword (List.concat groups) ->
  exists store',
    scan_groups keyword history_actions show groups store = Some store'.
Proof.
  induction groups as [|g groups IH]; intros store Hc; simpl.
  - eexists; reflexivity.
  - assert (Hg : can_scan keyword g /\ can_scan keyword (List.concat groups)).
    { destruct Hc as [-> | Hf]; [split; now left|].
      simpl in Hf. apply Forall_app in Hf. destruct Hf. split; now right. }
    destruct Hg as [Hg Hrest].
    destruct (scan_actions_defined keyword history_actions show g store Hg)
      as [mid ->].
    now apply IH.
Qed.

(** The matcher is undefined on a keyword and a NULL label only. *)
Lemma match_keyword_defined_iff keyword action :
  (exists r, action_search_match_keyword action keyword = Some r) <->
  keyword = None \/ stripped_label action <> None.
Proof.
  split; [|apply match_keyword_defined].
  intros [r Hr]. destruct keyword as [k|]; [right | now left].
  intros Hl. unfold action_search_match_keyword in Hr.
  rewrite Hl in Hr. discriminate.
Qed.

Lemma scan_action_defined_iff keyword history_actions show action store :
  (exists store',
      scan_action keyword history_actions show action store = Some store')
  <-> keyword = None \/
      (reaches_matcher show action = true -> stripped_label action <> None).
Proof.
  assert (Hpass : forall b : bool, b = false ->
    ((exists store' : list ResultRow, Some store = Some store')
     <-> keyword = None \/ (b = true -> stripped_label action <> None))).
  { intros b ->. split; [intros _; right; discriminate|].
    intros _. now exists store. }
  unfold scan_action, reaches_matcher.
  destruct (skipped_name (gtk_action_get_name action)); cbn [negb andb];
    [now apply Hpass|].
  destruct (negb (gtk_action_get_sensitive action) && negb show) eqn:Hs.
  { apply Hpass.
    destruct (gtk_action_get_sensitive action), show; simpl in *; congruence. }
  replace (gtk_action_get_sensitive action || show) with true
    by (destruct (gtk_action_get_sensitive action), show; simpl in *;
        congruence).
  pose proof (match_keyword_defined_iff keyword action) as Hm.
  assert (Hcalled :
    (exists r, action_search_match_keyword action keyword = Some r) <->
    keyword = None \/ (true = true -> stripped_label action <> None)).
  { rewrite Hm. split; intros [Hk | Hl]; auto. }
  rewrite <- Hcalled.
  destruct (action_search_match_keyword action keyword) as [[|section]|].
  - split; intros _; eexists; reflexivity.
  - destruct (is_redundant history_actions (gtk_action_get_name action));
      split; intros _; eexists; reflexivity.
  - split; intros [x Hx]; discriminate.
Qed.

Lemma scan_actions_defined_iff keyword history_actions show :
  forall actions store,
    (exists store',
        scan_actions keyword history_actions show actions store = Some store')
    <-> reads_no_null_label keyword show actions.
Proof.
  unfold reads_no_null_label.
  induction actions as [|a actions IH]; intros store; cbn [scan_actions].
  - split; [intros _; right; constructor | intros _; now exists store].
  - pose proof (scan_action_defined_iff keyword history_actions show a store)
      as Ha.
    destruct (scan_action keyword history_actions show a store) as [mid|].
    + rewrite (IH mid). split.
      * intros [Hk | Hrest]; [now left|].
        destruct (proj1 Ha) as [Hk | Hl]; [now exists mid | now left |].
        right. now constructor.
      * intros [Hk | Hall]; [now left|]. right. now inversion Hall.
    + split; [intros [x Hx]; discriminate|].
      intros Hall. apply Ha.
      destruct Hall as [Hk | Hall]; [now left | right; now inversion Hall].
Qed.

Lemma scan_groups_defined_iff keyword history_actions show :
  forall groups store,
    (exists store',
        scan_groups keyword history_actions show groups store = Some store')
    <-> reads_no_null_label keyword show (List.concat groups).
Proof.
  induction groups as [|g groups IH]; intros store; cbn [scan_groups].
  - split; [intros _; right; constructor | intros _; now exists store].
  - pose proof (scan_actions_defined_iff keyword history_actions show g store)
      as Hg.
    assert (Happ :
      reads_no_null_label keyword show (List.concat (g :: groups)) <->
      reads_no_null_label keyword show g /\
      reads_no_null_label keyword show (List.concat groups)).
    { unfold reads_no_null_label. cbn [List.concat]. split.
      - intros [Hk | Hall]; [split; now left|].
        apply Forall_app in Hall. destruct Hall. split; now right.
      - intros [[Hk | Hg'] [Hk' | Hrest]]; try (now left).
        right. apply Forall_app. now split. }
    rewrite Happ.
    destruct (scan_actions keyword history_actions show g store) as [mid|].
    + rewrite (IH mid). split; [intros Hrest; split; [|exact Hrest] | tauto].
      apply Hg. now exists mid.
    + split; [intros [x Hx]; discriminate|].
      intros [Hg' _]. now apply Hg.
Qed.

(** A search on a keyword other than the empty string runs to its end
    exactly when no call of the matcher reads through a NULL label. *)
Lemma search_defined_iff keyword history_actions groups show store :
  keyword <> Some EmptyString ->
  (exists rows,
      action_search_history_and_actions keyword history_actions groups show
        store = Some rows)
  <-> reads_no_null_label keyword show (List.concat groups).
Proof.
  intros Hk. unfold action_search_history_and_actions.
  assert (Hne : g_strcmp0_eq keyword (Some EmptyString) = false).
  { destruct keyword as [k|]; [|reflexivity]. simpl.
    apply String.eqb_neq. congruence. }
  rewrite Hne. apply scan_groups_defined_iff.
Qed.

Lemma filter_filter_andb {A} (f g : A -> bool) : forall l,
  filter (fun x => f x && g x) l = filter g (filter f l).
Proof.
  induction l as [|x l IH]; simpl; [reflexivity|].
  destruct (f x); simpl; [|exact IH].
  destruct (g x); now rewrite IH.
Qed.

Lemma filter_named_history name : forall history_actions,
  filter (named name) (map history_row history_actions)
  = map history_row
      (filter (fun h => String.eqb (gtk_action_get_name h) name)
         history_actions).
Proof.
  induction history_actions as [|h rest IH]; simpl; [reflexivity|].
  unfold named at 1. simpl.
  destruct (String.eqb (gtk_action_get_name h) name); simpl; now rewrite IH.
Qed.

(** C6, as the code has it.  For a keyword other than the empty string and
    an action that is the one history result of its name, whenever the
    search on the cleared list runs to its end: the scan of the catalogue
    adds no row for that name, and the final list holds exactly one row for
    it, the history row at section 0, when the label of the action is not
    blank; when the label is NULL or blank the list holds no row for it.
    The search runs to its end exactly when no keyword is given or every
    action of the catalogue that the scan hands to the matcher has a
    label. *)
Theorem history_action_listed_once
    (keyword : option string) (history_actions : list GtkAction)
    (groups : list (list GtkAction)) (search_show_unavailable : bool)
    (action : GtkAction) :
  keyword <> Some EmptyString ->
  filter (fun h => String.eqb (gtk_action_get_name h)
                     (gtk_action_get_name action)) history_actions
  = [action] ->
  (forall rows,
      action_search_history_and_actions keyword history_actions groups
        search_show_unavailable [] = Some rows ->
      rows_named (gtk_action_get_name action) rows
      = rows_named (gtk_action_get_name action)
          (add_history history_actions []) /\
      rows_named (gtk_action_get_name action) rows
      = (if has_label action then [row_of (action, 0%Z)] else [])) /\
  ((exists rows,
       action_search_history_and_actions keyword history_actions groups
         search_show_unavailable [] = Some rows)
   <-> reads_no_null_label keyword search_show_unavailable
         (List.concat groups)).
Proof.
  intros Hk Hone.
  split; [|now apply search_defined_iff].
  intros rows Hrows.
  unfold action_search_history_and_actions in Hrows.
  assert (Hne : g_strcmp0_eq keyword (Some EmptyString) = false).
  { destruct keyword as [k|]; [|reflexivity]. simpl.
    apply String.eqb_neq. congruence. }
  rewrite Hne in Hrows.
  assert (Hred : is_redundant history_actions (gtk_action_get_name action)
                 = true).
  { apply is_redundant_true. exists action.
    assert (Hin : In action [action]) by now left.
    rewrite <- Hone in Hin. apply filter_In in Hin.
    destruct Hin as [Hin _]. auto. }
  unfold rows_named.
  change (filter (named (gtk_action_get_name action)) rows
          = filter (named (gtk_action_get_name action))
              (add_history history_actions []) /\
          filter (named (gtk_action_get_name action)) rows
          = (if has_label action then [row_of (action, 0%Z)] else [])).
  rewrite (scan_groups_named _ _ _ _ Hred _ _ _ Hrows).
  split; [reflexivity|].
  rewrite add_history_rows by constructor. simpl.
  rewrite filter_named_history.
  rewrite <- (filter_filter_andb has_label).
  rewrite (filter_ext _ (fun h => String.eqb (gtk_action_get_name h)
                                   (gtk_action_get_name action)
                                 && has_label h))
    by (intros; apply andb_comm).
  rewrite filter_filter_andb, Hone. simpl.
  destruct (has_label action); reflexivity.
Qed.

Lemma history_action_listed_once_witness :
  let blur :=
    {| gtk_action_get_name := "filters-gaussian-blur";
       stripped_label := Some "Gaussian Blur";
       gtk_action_get_tooltip := Some "Simplest, most commonly used way of blurring";
       gtk_action_get_sensitive := true |} in
  let grow :=
    {| gtk_action_get_name := "select-grow";
       stripped_label := Some "Grow by...";
       gtk_action_get_tooltip := None;
       gtk_action_get_sensitive := true |} in
  let menu :=
    {| gtk_action_get_name := "filters-menu";
       stripped_label := None;
       gtk_action_get_tooltip := None;
       gtk_action_get_sensitive := true |} in
  exists rows,
    action_search_history_and_actions (Some "gb") [blur]
      [[blur; menu; grow]] false [] = Some rows /\
    rows_named "filters-gaussian-blur" rows = [row_of (blur, 0%Z)].
Proof.
  intros blur grow menu.
  destruct (history_action_listed_once (Some "gb") [blur]
              [[blur; menu; grow]] false blur) as [Hrows Hdefined];
    [discriminate | reflexivity |].
  destruct (proj2 Hdefined) as [rows Hrun].
  { right. repeat constructor; simpl; intros; discriminate. }
  exists rows. split; [exact Hrun|].
  exact (proj2 (Hrows rows Hrun)).
Defined.

(** An action with an empty label and a tooltip that holds the keyword
    matches, is a history result and is in the catalogue, and the final
    list has no row for it: [action_search_add_to_results_list] returns
    early on the empty label, and the scan passes over it as redundant. *)
Lemma history_action_without_label_not_listed :
  let action :=
    {| gtk_action_get_name := "tools-foo";
       stripped_label := Some EmptyString;
       gtk_action_get_tooltip := Some "Foo the image";
       gtk_action_get_sensitive := true |} in
  action_search_match_keyword action (Some "foo") = Some (MATCH 3) /\
  action_search_history_and_actions (Some "foo") [action] [[action]]
    false [] = Some [] /\
  ~ (exists rows row,
       action_search_history_and_actions (Some "foo") [action] [[action]]
         false [] = Some rows /\
       rows_named "tools-foo" rows = [row] /\
       RESULT_SECTION row = 0%Z).
Proof.
  intros action. split; [reflexivity|]. split; [reflexivity|].
  intros (rows & row & Hrun & Hrows & _).
  vm_compute in Hrun. injection Hrun as <-. discriminate Hrows.
Qed.

(** ** Confirming the selection *)

(** C7.  Confirming a selection whose action is not sensitive invokes no
    activation callback and leaves the dialog, the list and the selection
    as they were; the selection mode is set to GTK_SELECTION_SINGLE, which
    it already is in the dialog, so the session is unchanged.  The callback
    runs, and the dialog is destroyed after it, only when a row is selected
    and its action is sensitive. *)
Theorem run_selected_disabled_is_noop (private : SearchDialog) :
  let after := action_search_run_selected private in
  (forall row,
      gtk_tree_selection_get_selected private = Some row ->
      gtk_action_get_sensitive (RESULT_ACTION row) = false ->
      activated after = activated private /\
      dialog after = dialog private /\
      results_list after = results_list private /\
      selection after = selection private /\
      (selection_mode private = GTK_SELECTION_SINGLE -> after = private)) /\
  (activated after <> activated private \/ dialog after <> dialog private ->
   exists row,
     gtk_tree_selection_get_selected private = Some row /\
     gtk_action_get_sensitive (RESULT_ACTION row) = true /\
     activated after = activated private ++ [RESULT_ACTION row] /\
     dialog after = false).
Proof.
  unfold action_search_run_selected.
  change (gtk_tree_selection_get_selected
            (gtk_tree_selection_set_mode GTK_SELECTION_SINGLE private))
    with (gtk_tree_selection_get_selected private).
  destruct (gtk_tree_selection_get_selected private) as [row|]; simpl.
  - destruct (gtk_action_get_sensitive (RESULT_ACTION row)) eqn:Hs; simpl.
    + split; [intros r [= <-]; congruence|].
      intros _. exists row. repeat split. exact Hs.
    + split.
      * intros r _ _. repeat split.
        destruct private; simpl. now intros ->.
      * intros [Ha | Hd]; contradiction.
  - split; [discriminate|].
    intros [Ha | Hd]; contradiction.
Qed.

Lemma run_selected_disabled_is_noop_witness :
  let undo :=
    {| gtk_action_get_name := "edit-undo";
       stripped_label := Some "Undo";
       gtk_action_get_tooltip := Some "Undo the last operation";
       gtk_action_get_sensitive := false |} in
  let private :=
    {| dialog := true;
       results_list := [row_of (undo, 1%Z)];
       selection_mode := GTK_SELECTION_SINGLE;
       selection := Some 0%nat;
       activated := [] |} in
  action_search_run_selected private = private.
Proof.
  intros undo private.
  apply (proj1 (run_selected_disabled_is_noop private) (row_of (undo, 1%Z)));
    reflexivity.
Defined.

End ActionSearchFacts.

(** ** The ISO 639 parser *)

Module IsoCodesFacts.

Import IsoCodes LibcFacts.

(** *** The code of an entry *)

Lemma entry_attributes_code : forall names values lang code,
  snd (entry_attributes names values lang code)
  = match last_attribute "iso_639_1_code" names values with
    | Some c => Some c
    | None =>
        match code with
        | Some c => Some c
        | None => first_three_letter_code names values
        end
    end.
Proof.
  induction names as [|name names IH]; intros values lang code.
  - simpl. now destruct code.
  - destruct values as [|value values]; [simpl; now destruct code|].
    cbn [entry_attributes last_attribute first_three_letter_code].
    destruct (String.eqb_spec name "name") as [->|_].
    { rewrite IH. cbn.
      now destruct (last_attribute "iso_639_1_code" names values), code. }
    destruct (String.eqb_spec name "iso_639_2B_code") as [->|_].
    { cbn. destruct code as [c|]; cbn; rewrite IH;
        now destruct (last_attribute "iso_639_1_code" names values). }
    destruct (String.eqb_spec name "iso_639_2T_code") as [->|_].
    { cbn. destruct code as [c|]; cbn; rewrite IH;
        now destruct (last_attribute "iso_639_1_code" names values). }
    cbn.
    destruct (String.eqb_spec name "iso_639_1_code") as [->|_];
      rewrite IH;
      now destruct (last_attribute "iso_639_1_code" names values), code.
Qed.

(** C2, as the code has it.  The iso_639_1_code attribute has priority: when
    the entry has one, its value is the code whatever else the entry has
    (the last one, should it come twice); otherwise the code is the value of
    the first attribute, in the order of the attributes, that is named
    iso_639_2B_code or iso_639_2T_code; an entry with none of the three has
    no code. *)
Theorem entry_code_priority (names values : list string) :
  entry_code names values
  = match last_attribute "iso_639_1_code" names values with
    | Some code => Some code
    | None => first_three_letter_code names values
    end.
Proof.
  unfold entry_code. now rewrite entry_attributes_code.
Qed.

(** The entry for Chinese of iso_639.xml: the loop settles on "zh", the
    value of iso_639_1_code, where the priority list of the specification
    gives "chi", the value of iso_639_2B_code. *)
Lemma entry_code_not_by_2B_2T_1 :
  let names := ["iso_639_2B_code"; "iso_639_2T_code"; "iso_639_1_code";
                "name"] in
  let values := ["chi"; "zho"; "zh"; "Chinese"] in
  entry_code names values = Some "zh" /\
  code_by_2B_2T_1 names values = Some "chi" /\
  entry_code names values <> code_by_2B_2T_1 names values.
Proof.
  intros names values. split; [reflexivity|]. split; [reflexivity|].
  discriminate.
Qed.

(** *** Self-localisation *)

Section SelfL10n.

Context `{Libintl}.

Lemma self_l10n_adds (store : GimpLanguageStore) (lang code : string)
    (p : Process) :
  nonempty lang = true -> nonempty code = true ->
  exists label p',
    gimp_language_store_self_l10n store (Some lang) (Some code) p
    = (store ++ [(label, code)], p').
Proof.
  intros Hl Hc. unfold gimp_language_store_self_l10n.
  rewrite Hl, Hc. cbn [andb].
  destruct (negb (g_strcmp0_eq (Some code) (Some "en"))).
  - match goal with |- context [strchr ?l ";"] => destruct (strchr l ";") end;
      eexists; eexists; reflexivity.
  - destruct (strchr lang ";"); eexists; eexists; reflexivity.
Qed.

(** C9.  After [gimp_language_store_self_l10n] every environment variable,
    LANGUAGE among them, has the value it had before.  The call writes the
    environment either not at all, or twice: LANGUAGE is set for the lookup
    and then set back to the value saved, or unset if there was none.  For
    the code "en" the process is left exactly as it was. *)
Theorem self_l10n_restores_language (store : GimpLanguageStore)
    (lang code : option string) (p : Process) :
  let after := snd (gimp_language_store_self_l10n store lang code p) in
  (forall variable, g_getenv variable after = g_getenv variable p) /\
  (environ_writes after = environ_writes p \/
   exists c, code = Some c /\
     environ_writes after
     = environ_writes p ++
       [("LANGUAGE", Some (temporary_language c p));
        ("LANGUAGE", g_getenv "LANGUAGE" p)]) /\
  snd (gimp_language_store_self_l10n store lang (Some "en") p) = p.
Proof.
  split; [|split].
  - unfold gimp_language_store_self_l10n.
    destruct lang as [l|], code as [c|]; try (intros; reflexivity).
    destruct (nonempty l && nonempty c); [|intros; reflexivity].
    destruct (negb (g_strcmp0_eq (Some c) (Some "en"))).
    + match goal with |- context [strchr ?l ";"] => destruct (strchr l ";") end;
        cbn [snd]; intros variable;
        unfold g_getenv, setlocale_native, g_setenv, g_unsetenv,
          write_environ; cbn;
        (destruct (environ p "LANGUAGE") eqn:E; cbn;
         destruct (String.eqb_spec variable "LANGUAGE") as [->|];
         congruence).
    + destruct (strchr l ";"); intros; reflexivity.
  - unfold gimp_language_store_self_l10n.
    destruct lang as [l|], code as [c|]; try (left; reflexivity).
    destruct (nonempty l && nonempty c); [|left; reflexivity].
    destruct (negb (g_strcmp0_eq (Some c) (Some "en"))).
    + right. exists c. split; [reflexivity|].
      unfold temporary_language.
      match goal with |- context [strchr ?l ";"] => destruct (strchr l ";") end;
        cbn [snd]; unfold g_getenv, setlocale_native, g_setenv, g_unsetenv,
          write_environ;
        destruct (environ p "LANGUAGE"); cbn; now rewrite <- app_assoc.
    + left. destruct (strchr l ";"); reflexivity.
  - unfold gimp_language_store_self_l10n.
    destruct lang as [l|]; [|reflexivity].
    destruct (nonempty l && nonempty "en"); [|reflexivity].
    cbn. destruct (strchr l ";"); reflexivity.
Qed.

(** *** The entry for Chinese *)

(** C3.  When the code of an entry is "zh", [iso_codes_parser_entry] adds
    three rows to the store, with the codes zh_CN, zh_TW and zh_HK in this
    order, and none with the code "zh". *)
Theorem zh_entry_adds_three_dialects
    (parser : IsoCodesParser) (names values : list string) (p : Process) :
  entry_code names values = Some "zh" ->
  exists added,
    store (fst (iso_codes_parser_entry parser names values p))
    = store parser ++ added /\
    map snd added = ["zh_CN"; "zh_TW"; "zh_HK"] /\
    ~ In "zh" (map snd added).
Proof.
  intros Hcode. unfold iso_codes_parser_entry.
  unfold entry_code in Hcode.
  destruct (entry_attributes names values None None) as [lang code].
  simpl in Hcode. subst code. cbn [g_strcmp0_eq String.eqb].
  replace (String.eqb "zh" "zh") with true by reflexivity.
  destruct (self_l10n_adds (store parser) "Chinese" "zh_CN" p eq_refl eq_refl)
    as (l1 & p1 & ->).
  destruct (self_l10n_adds (store parser ++ [(l1, "zh_CN")]) "Chinese" "zh_TW"
              p1 eq_refl eq_refl) as (l2 & p2 & ->).
  destruct (self_l10n_adds ((store parser ++ [(l1, "zh_CN")])
                              ++ [(l2, "zh_TW")]) "Chinese" "zh_HK"
              p2 eq_refl eq_refl) as (l3 & p3 & ->).
  exists [(l1, "zh_CN"); (l2, "zh_TW"); (l3, "zh_HK")].
  cbn [fst store with_store]. split; [now rewrite <- !app_assoc|].
  split; [reflexivity|].
  simpl. intros [E | [E | [E | []]]]; discriminate.
Qed.

End SelfL10n.

Lemma zh_entry_adds_three_dialects_witness :
  exists added,
    store (fst (@iso_codes_parser_entry no_catalogue (parser_init [])
                  ["iso_639_2B_code"; "iso_639_2T_code"; "iso_639_1_code";
                   "name"]
                  ["chi"; "zho"; "zh"; "Chinese"]
                  {| environ := fun _ => None; locale := "C";
                     environ_writes := [] |}))
    = [] ++ added /\
    map snd added = ["zh_CN"; "zh_TW"; "zh_HK"] /\
    ~ In "zh" (map snd added).
Proof.
  apply (@zh_entry_adds_three_dialects no_catalogue (parser_init [])).
  reflexivity.
Defined.

(** *** The state machine *)

Lemma gint_small (z : Z) :
  (-2147483648 <= z < 2147483648)%Z -> gint z = z.
Proof.
  intros Hz. unfold gint. rewrite Z.mod_small; lia.
Qed.

Lemma state_eqb_eq (a b : IsoCodesParserState) :
  state_eqb a b = true <-> a = b.
Proof.
  destruct a, b; simpl; split; intros E; try reflexivity; discriminate.
Qed.

Lemma start_unknown_control n parser :
  control_inv n parser -> (n < 2147483647)%Z ->
  control_inv (n + 1) (iso_codes_parser_start_unknown parser) /\
  unknown_depth (iso_codes_parser_start_unknown parser)
  = (unknown_depth parser + 1)%Z /\
  known_state (iso_codes_parser_start_unknown parser) = known_state parser.
Proof.
  intros (Hd & Hiff & Hlast) Hn.
  unfold control_inv, known_state, iso_codes_parser_start_unknown. simpl.
  rewrite gint_small by lia.
  split; [|split; [reflexivity|]].
  - split; [lia|]. split; [split; [lia | reflexivity]|].
    destruct (Z.eqb_spec (unknown_depth parser) 0) as [E|E]; [|exact Hlast].
    intros Hs. apply Hiff in Hs. lia.
  - destruct (Z.eqb_spec (unknown_depth parser) 0) as [E|E].
    + destruct (state_eqb (state parser) ISO_CODES_IN_UNKNOWN) eqn:Hs;
        [|reflexivity].
      apply state_eqb_eq in Hs. apply Hiff in Hs. lia.
    + destruct (state_eqb (state parser) ISO_CODES_IN_UNKNOWN) eqn:Hs;
        [reflexivity|].
      assert (state parser = ISO_CODES_IN_UNKNOWN) by (apply Hiff; lia).
      apply state_eqb_eq in H. congruence.
Qed.

Lemma end_unknown_control n parser :
  control_inv n parser -> (n < 2147483647)%Z ->
  state parser = ISO_CODES_IN_UNKNOWN ->
  exists parser',
    iso_codes_parser_end_unknown parser = Some parser' /\
    control_inv (n + 1) parser' /\
    unknown_depth parser' = (unknown_depth parser - 1)%Z /\
    known_state parser' = known_state parser /\
    store parser' = store parser /\
    last_known_state parser' = last_known_state parser /\
    state parser'
    = (if (unknown_depth parser =? 1)%Z then last_known_state parser
       else ISO_CODES_IN_UNKNOWN).
Proof.
  intros (Hd & Hiff & Hlast) Hn Hs.
  assert (Hpos : (0 < unknown_depth parser)%Z) by now apply Hiff.
  unfold iso_codes_parser_end_unknown. rewrite Hs.
  destruct (Z.gtb_spec (unknown_depth parser) 0) as [_|]; [|lia].
  cbn [andb state_eqb].
  rewrite gint_small by lia.
  eexists. split; [reflexivity|].
  unfold control_inv, known_state. simpl. rewrite Hs. simpl.
  destruct (Z.eqb_spec (unknown_depth parser - 1) 0) as [E|E];
    destruct (Z.eqb_spec (unknown_depth parser) 1) as [E1|E1]; try lia.
  - repeat split; try lia; try assumption.
    + intros Hk. contradiction.
    + destruct (state_eqb (last_known_state parser) ISO_CODES_IN_UNKNOWN)
        eqn:Hk; [|reflexivity].
      apply state_eqb_eq in Hk. contradiction.
  - repeat split; try lia; assumption.
Qed.

Lemma entry_keeps_control `{Libintl} parser names values p :
  exists s p',
    iso_codes_parser_entry parser names values p = (with_store parser s, p').
Proof.
  unfold iso_codes_parser_entry.
  destruct (entry_attributes names values None None) as [lang code].
  destruct (g_strcmp0_eq code (Some "zh")).
  - destruct (gimp_language_store_self_l10n (store parser) _ _ p) as [s1 p1].
    destruct (gimp_language_store_self_l10n s1 _ _ p1) as [s2 p2].
    destruct (gimp_language_store_self_l10n s2 _ _ p2) as [s3 p3].
    eexists; eexists; reflexivity.
  - destruct (gimp_language_store_self_l10n (store parser) lang code p)
      as [s1 p1].
    eexists; eexists; reflexivity.
Qed.

(** A step between known states, or into one. *)
Lemma known_step_control n parser s' st :
  control_inv n parser -> state parser <> ISO_CODES_IN_UNKNOWN ->
  s' <> ISO_CODES_IN_UNKNOWN ->
  control_inv (n + 1) (with_store (with_state parser s') st) /\
  control_inv (n + 1) (with_state parser s') /\
  unknown_depth parser = 0%Z /\
  known_state parser = state parser /\
  known_state (with_store (with_state parser s') st) = s' /\
  known_state (with_state parser s') = s'.
Proof.
  intros (Hd & Hiff & Hlast) Hs Hs'.
  assert (H0 : unknown_depth parser = 0%Z).
  { destruct (Z.eq_dec (unknown_depth parser) 0) as [E|E]; [exact E|].
    exfalso. apply Hs, Hiff. lia. }
  assert (Hk : forall s, s <> ISO_CODES_IN_UNKNOWN ->
                 state_eqb s ISO_CODES_IN_UNKNOWN = false).
  { intros s Hne. destruct (state_eqb s ISO_CODES_IN_UNKNOWN) eqn:E;
      [|reflexivity]. apply state_eqb_eq in E. contradiction. }
  unfold control_inv, known_state. simpl.
  rewrite !(Hk _ Hs'), (Hk _ Hs), H0.
  repeat split; try lia; try assumption; try contradiction;
    intros; lia.
Qed.

Ltac known_state_neq :=
  match goal with
  | Hs : state ?p = _ |- state ?p <> _ => rewrite Hs; discriminate
  | |- _ <> _ => discriminate
  end.

Lemma handle_step `{Libintl} n e parser p :
  control_inv n parser -> (n < 2147483647)%Z ->
  exists parser' p',
    handle e parser p = Some (parser', p') /\
    control_inv (n + 1) parser' /\
    forall open open',
      nesting_inv parser open ->
      open_elements [e] open = Some open' ->
      nesting_inv parser' open' /\
      (forall name, e = END_ELEMENT name -> state parser <> ISO_CODES_START).
Proof.
  intros Hinv Hn.
  assert (Hunknown :
    exists parser' p',
      Some (start_case_in_entry parser p) = Some (parser', p') /\
      control_inv (n + 1) parser' /\
      forall open, nesting_inv parser open -> nesting_inv parser' (S open)).
  { destruct (start_unknown_control n parser Hinv Hn) as (Hc & Hdepth & Hk).
    eexists; eexists. split; [reflexivity|]. split; [exact Hc|].
    intros open. unfold nesting_inv. rewrite Hdepth, Hk. lia. }
  assert (Hentry :
    state parser = ISO_CODES_START \/ state parser = ISO_CODES_IN_ENTRIES ->
    forall names values,
    exists parser' p',
      Some (iso_codes_parser_entry (with_state parser ISO_CODES_IN_ENTRY)
              names values p) = Some (parser', p') /\
      control_inv (n + 1) parser' /\
      forall open, nesting_inv parser open -> nesting_inv parser' (S open)).
  { intros Hs names values.
    destruct (entry_keeps_control (with_state parser ISO_CODES_IN_ENTRY)
                names values p) as (st & p' & ->).
    destruct (known_step_control n parser ISO_CODES_IN_ENTRY st Hinv)
      as (Hc & _ & H0 & Hk & Hk' & _);
      [destruct Hs as [-> | ->]; discriminate | discriminate |].
    eexists; eexists. split; [reflexivity|]. split; [exact Hc|].
    intros open. unfold nesting_inv. rewrite Hk, Hk'. cbn [unknown_depth
      with_store with_state]. rewrite H0.
    destruct Hs as [-> | ->]; simpl; lia. }
  destruct e as [name names values | name].
  - (* a start-tag *)
    assert (Hgoal :
      exists parser' p',
        handle (START_ELEMENT name names values) parser p
        = Some (parser', p') /\
        control_inv (n + 1) parser' /\
        forall open, nesting_inv parser open -> nesting_inv parser' (S open)).
    { cbn [handle]. unfold iso_codes_parser_start_element.
      destruct (state parser) eqn:Hs; try exact Hunknown.
      - unfold start_case_start, start_case_in_entries.
        destruct (String.eqb name "iso_639_entries").
        + destruct (known_step_control n parser ISO_CODES_IN_ENTRIES []
                      Hinv) as (_ & Hc & H0 & Hk & _ & Hk');
            try known_state_neq.
          eexists; eexists. split; [reflexivity|]. split; [exact Hc|].
          intros open. unfold nesting_inv. rewrite Hk, Hk', Hs.
          cbn [unknown_depth with_state]. rewrite H0. simpl. lia.
        + destruct (String.eqb name "iso_639_entry"); [|exact Hunknown].
          apply Hentry. now left.
      - unfold start_case_in_entries.
        destruct (String.eqb name "iso_639_entry"); [|exact Hunknown].
        apply Hentry. now right. }
    destruct Hgoal as (parser' & p' & Hh & Hc & Hnest).
    exists parser', p'. split; [exact Hh|]. split; [exact Hc|].
    intros open open' Hni [= <-]. split; [now apply Hnest | discriminate].
  - (* an end-tag *)
    cbn [handle]. unfold iso_codes_parser_end_element.
    destruct (state parser) eqn:Hs.
    + (* ISO_CODES_START: with an element open this cannot be *)
      eexists; eexists. split; [reflexivity|]. split.
      * destruct Hinv as (Hd & Hiff & Hlast).
        repeat split; try lia; try assumption; apply Hiff.
      * intros open open' Hni Hopen. exfalso.
        destruct open as [|open]; [discriminate|].
        destruct Hinv as (Hd & Hiff & Hlast).
        unfold nesting_inv, known_state in Hni. rewrite Hs in Hni.
        cbn [state_eqb level] in Hni.
        assert (unknown_depth parser = 0%Z).
        { destruct (Z.eq_dec (unknown_depth parser) 0) as [E|E]; [exact E|].
          assert (state parser = ISO_CODES_IN_UNKNOWN) by (apply Hiff; lia).
          congruence. }
        lia.
    + destruct (known_step_control n parser ISO_CODES_START [] Hinv)
        as (_ & Hc & H0 & Hk & _ & Hk'); try known_state_neq.
      eexists; eexists. split; [reflexivity|]. split; [exact Hc|].
      intros open open' Hni Hopen.
      split; [|intros; discriminate].
      destruct open as [|open]; [discriminate|]. injection Hopen as <-.
      unfold nesting_inv in *. rewrite Hk'. rewrite Hk, Hs in Hni.
      cbn [unknown_depth with_state level] in *. lia.
    + destruct (known_step_control n parser ISO_CODES_IN_ENTRIES [] Hinv)
        as (_ & Hc & H0 & Hk & _ & Hk'); try known_state_neq.
      eexists; eexists. split; [reflexivity|]. split; [exact Hc|].
      intros open open' Hni Hopen.
      split; [|intros; discriminate].
      destruct open as [|open]; [discriminate|]. injection Hopen as <-.
      unfold nesting_inv in *. rewrite Hk'. rewrite Hk, Hs in Hni.
      cbn [unknown_depth with_state level] in *. lia.
    + destruct (end_unknown_control n parser Hinv Hn Hs)
        as (parser' & -> & Hc & Hdepth & Hk & _).
      eexists; eexists. split; [reflexivity|]. split; [exact Hc|].
      intros open open' Hni Hopen.
      split; [|intros; discriminate].
      destruct open as [|open]; [discriminate|]. injection Hopen as <-.
      unfold nesting_inv in *. rewrite Hk, Hdepth. lia.
Qed.

Lemma parser_init_control s0 : control_inv 0 (parser_init s0).
Proof.
  unfold control_inv, parser_init. simpl.
  repeat split; try lia; try discriminate.
Qed.


Lemma run_control `{Libintl} : forall events n parser p,
  control_inv n parser ->
  (n + Z.of_nat (List.length events) < 2147483648)%Z ->
  exists q pq,
    run events parser p = Some (q, pq) /\
    control_inv (n + Z.of_nat (List.length events)) q.
Proof.
  induction events as [|e events IH]; intros n parser p Hc Hn.
  - exists parser, p. split; [reflexivity|].
    simpl. now rewrite Z.add_0_r.
  - cbn [List.length] in Hn. cbn [run].
    destruct (handle_step n e parser p Hc) as (q & pq & -> & Hc' & _); [lia|].
    destruct (IH (n + 1)%Z q pq Hc') as (r & pr & Hr & Hcr); [lia|].
    exists r, pr. split; [exact Hr|].
    cbn [List.length]. replace (n + Z.of_nat (S (List.length events)))%Z
      with (n + 1 + Z.of_nat (List.length events))%Z by lia.
    exact Hcr.
Qed.


(** *** Nesting, not length, bounds the depth *)



(** A document nests no deeper than it is long. *)
Lemma deepest_le_length : forall events open,
  (deepest events open <= open + List.length events)%nat.
Proof.
  induction events as [|e events IH]; intros open; cbn [deepest List.length].
  - lia.
  - specialize (IH (opens e open)). destruct e; cbn [opens] in *; lia.
Qed.








Lemma run_app `{Libintl} : forall first rest parser p q pq,
  run first parser p = Some (q, pq) ->
  run (first ++ rest) parser p = run rest q pq.
Proof.
  induction first as [|e first IH]; intros rest parser p q pq; simpl.
  - now intros [= <- <-].
  - destruct (handle e parser p) as [[parser' p']|]; [|discriminate].
    apply IH.
Qed.




(** *** Elements nested 2^31 deep *)









End IsoCodesFacts.

(** * Further properties *)

(** ** The matcher, rule by rule *)

Module MatcherFacts.

Import ActionSearch MatcherNotions LibcFacts ActionSearchFacts.

Lemma append_assoc (a b c : string) :
  ((a ++ b) ++ c = a ++ (b ++ c))%string.
Proof.
  induction a as [|x a IH]; simpl; [reflexivity | now rewrite IH].
Qed.





Lemma lowercase_length (s : string) :
  String.length (lowercase s) = String.length s.
Proof.
  induction s as [|c s IH]; simpl; [reflexivity | now rewrite IH].
Qed.



(** What the matcher answers for a keyword and a label, in the terms of
    the rules. *)
Lemma match_keyword_cases (action : GtkAction) (keyword label : string) :
  stripped_label action = Some label ->
  let key := lowercase keyword in
  let lbl := lowercase label in
  action_search_match_keyword action (Some keyword)
  = Some
      (if initials_rule lbl key then MATCH 1
       else match strstr lbl key with
            | Some o => MATCH (if (o =? 0)%nat then 1 else 2)
            | None =>
                if (2 <? String.length keyword)%nat then
                  match gtk_action_get_tooltip action with
                  | Some t =>
                      match strstr (lowercase t) key with
                      | Some _ => MATCH 3
                      | None => if action_fuzzy_match lbl key then MATCH 4
                                else NO_MATCH
                      end
                  | None => if action_fuzzy_match lbl key then MATCH 4
                            else NO_MATCH
                  end
                else if action_fuzzy_match lbl key then MATCH 4
                     else NO_MATCH
            end).
Proof.
  intros Hl key lbl. unfold action_search_match_keyword. rewrite Hl.
  unfold strlen at 1. rewrite (lowercase_length keyword). fold key lbl.
  destruct (initials_rule lbl key); [reflexivity|].
  destruct (strstr lbl key); [reflexivity|].
  destruct (2 <? String.length keyword)%nat;
    [|destruct (action_fuzzy_match lbl key); reflexivity].
  destruct (gtk_action_get_tooltip action) as [t|];
    [|destruct (action_fuzzy_match lbl key); reflexivity].
  destruct (strstr (lowercase t) key);
    [reflexivity | destruct (action_fuzzy_match lbl key); reflexivity].
Qed.

(** With a keyword, a match is in one of the sections 1 to 4. *)
Lemma match_section_range (action : GtkAction) (keyword : string)
    (section : Z) :
  action_search_match_keyword action (Some keyword) = Some (MATCH section) ->
  (1 <= section <= 4)%Z.
Proof.
  destruct (stripped_label action) as [label|] eqn:Hl.
  - rewrite (match_keyword_cases action keyword label Hl). cbv zeta.
    intros E.
    destruct (initials_rule _ _); [injection E as <-; lia|].
    destruct (strstr (lowercase label) _) as [o|];
      [destruct (o =? 0)%nat; injection E as <-; lia|].
    destruct (2 <? _)%nat;
      [destruct (gtk_action_get_tooltip action) as [t|];
       [destruct (strstr (lowercase t) _);
        [injection E as <-; lia|]|]|];
      destruct (action_fuzzy_match _ _); try discriminate;
      injection E as <-; lia.
  - unfold action_search_match_keyword. rewrite Hl. discriminate.
Qed.









(** *** Case *)




Lemma same_up_to_case_refl (s : string) : same_up_to_case s s.
Proof.
  induction s as [|c s IH]; constructor; [now left | exact IH].
Qed.


End MatcherFacts.

(** ** The results list, one call and a whole search *)

Module ResultsFacts.

Import ActionSearch MatcherNotions ResultsNotions LibcFacts ActionSearchFacts
  MatcherFacts.

Lemma g_strchomp_empty (s : string) :
  g_strchomp s = EmptyString <-> is_blank s = true.
Proof.
  induction s as [|c s IH]; simpl; [tauto|].
  destruct (g_strchomp s) as [|k kept].
  - destruct (g_ascii_isspace c); simpl.
    + split; [intros _; now apply IH | reflexivity].
    + split; discriminate.
  - split; [discriminate|].
    intros Hb. apply andb_true_iff in Hb. destruct Hb as [_ Hb].
    apply IH in Hb. discriminate.
Qed.

Lemma g_strchug_blank (s : string) :
  is_blank (g_strchug s) = is_blank s.
Proof.
  induction s as [|c s IH]; simpl; [reflexivity|].
  destruct (g_ascii_isspace c) eqn:E; simpl; [exact IH | now rewrite E].
Qed.

Lemma g_strstrip_empty (s : string) :
  strlen (g_strstrip s) = 0%nat <-> is_blank s = true.
Proof.
  unfold g_strstrip, strlen. rewrite <- g_strchug_blank, <- g_strchomp_empty.
  destruct (g_strchomp (g_strchug s)); simpl; split; congruence.
Qed.

Lemma has_label_visible (action : GtkAction) :
  has_label action = true <->
  exists label, stripped_label action = Some label /\ is_blank label = false.
Proof.
  unfold has_label.
  destruct (stripped_label action) as [l|]; simpl.
  - pose proof (g_strstrip_empty l) as Hs.
    destruct (Nat.eqb_spec (strlen (g_strstrip l)) 0) as [E|E]; simpl.
    + split; [discriminate|]. intros (l' & [= <-] & Hb).
      apply Hs in E. congruence.
    + split; [|reflexivity]. intros _. exists l. split; [reflexivity|].
      destruct (is_blank l); [|reflexivity]. exfalso. now apply E, Hs.
  - split; [discriminate | intros (l & Hl & _); discriminate].
Qed.

Lemma insert_by_section_split (new : ResultRow) : forall rows,
  exists before after,
    rows = before ++ after /\
    insert_by_section new rows = before ++ new :: after /\
    Forall (fun r => (RESULT_SECTION r <= RESULT_SECTION new)%Z) before /\
    (forall r, hd_error after = Some r ->
               (RESULT_SECTION new < RESULT_SECTION r)%Z).
Proof.
  induction rows as [|x rows IH]; simpl.
  - exists [], []. repeat split; [constructor | discriminate].
  - destruct (Z.gtb_spec (RESULT_SECTION x) (RESULT_SECTION new)) as [Hgt|Hle].
    + exists [], (x :: rows). repeat split; [constructor|].
      intros r [= <-]. exact Hgt.
    + destruct IH as (before & after & Hrows & Hins & Hb & Ha).
      exists (x :: before), after. rewrite Hins, Hrows.
      repeat split; [constructor; assumption | exact Ha].
Qed.

(** X5.  [action_search_add_to_results_list] adds exactly one row when the
    label of the action holds a character that is not white space, and
    leaves the list as it is when the label is NULL, empty or blank.  The
    new row goes in without moving the others: after every row of its own
    section or a lower one from the top, and just before the first row of a
    higher section. *)
Theorem add_to_results_list_one_row_or_none
    (action : GtkAction) (store : list ResultRow) (section : Z) :
  let after_call := action_search_add_to_results_list action store section in
  ((exists label,
       stripped_label action = Some label /\ is_blank label = false) ->
   exists above below,
     store = above ++ below /\
     after_call = above ++ row_of (action, section) :: below /\
     Forall (fun r => (RESULT_SECTION r <= section)%Z) above /\
     (forall r, hd_error below = Some r -> (section < RESULT_SECTION r)%Z)) /\
  (stripped_label action = None \/
   (exists label,
       stripped_label action = Some label /\ is_blank label = true) ->
   after_call = store).
Proof.
  intros after_call. unfold after_call.
  rewrite add_to_results_list_unfold.
  split.
  - intros Hv. apply has_label_visible in Hv. rewrite Hv.
    exact (insert_by_section_split (row_of (action, section)) store).
  - intros Hn.
    destruct (has_label action) eqn:Hl; [|reflexivity].
    apply has_label_visible in Hl. destruct Hl as (l & Hl & Hb).
    destruct Hn as [Hn | (l' & Hl' & Hb')]; congruence.
Qed.

Lemma add_to_results_list_one_row_or_none_witness :
  let undo :=
    {| gtk_action_get_name := "edit-undo";
       stripped_label := Some "Undo";
       gtk_action_get_tooltip := None;
       gtk_action_get_sensitive := true |} in
  let spacer :=
    {| gtk_action_get_name := "edit-spacer";
       stripped_label := Some "  ";
       gtk_action_get_tooltip := None;
       gtk_action_get_sensitive := true |} in
  action_search_add_to_results_list spacer [row_of (undo, 1%Z)] 0
  = [row_of (undo, 1%Z)].
Proof.
  intros undo spacer.
  apply (proj2 (add_to_results_list_one_row_or_none spacer
                  [row_of (undo, 1%Z)] 0)).
  right. exists "  ". split; reflexivity.
Defined.

(** *** A whole search *)

Lemma add_each_app : forall calls calls' store,
  add_each (calls ++ calls') store = add_each calls' (add_each calls store).
Proof.
  induction calls as [|[a s] calls IH]; intros calls' store; simpl;
    [reflexivity | apply IH].
Qed.

Lemma add_history_calls : forall history_actions store,
  add_history history_actions store
  = add_each (history_calls history_actions) store.
Proof.
  induction history_actions as [|h rest IH]; intros store; simpl;
    [reflexivity | apply IH].
Qed.

Lemma scan_action_call keyword history_actions show action store store' :
  scan_action keyword history_actions show action store = Some store' ->
  store' = add_each (catalogue_call keyword history_actions show action)
             store.
Proof.
  unfold scan_action, catalogue_call.
  destruct (skipped_name _); [now intros [= <-]|].
  destruct (_ && _); [now intros [= <-]|].
  destruct (action_search_match_keyword action keyword) as [[|section]|];
    [now intros [= <-] | | discriminate].
  destruct (is_redundant _ _); now intros [= <-].
Qed.

Lemma scan_actions_calls keyword history_actions show :
  forall actions store store',
    scan_actions keyword history_actions show actions store = Some store' ->
    store' = add_each
               (flat_map (catalogue_call keyword history_actions show)
                  actions) store.
Proof.
  induction actions as [|a actions IH]; intros store store'; simpl.
  - now intros [= <-].
  - destruct (scan_action keyword history_actions show a store)
      as [mid|] eqn:Ha; [|discriminate].
    intros Hrest. rewrite add_each_app.
    rewrite <- (scan_action_call _ _ _ _ _ _ Ha). now apply IH.
Qed.

Lemma scan_groups_calls keyword history_actions show :
  forall groups store store',
    scan_groups keyword history_actions show groups store = Some store' ->
    store' = add_each
               (catalogue_calls keyword history_actions show groups) store.
Proof.
  unfold catalogue_calls.
  induction groups as [|g groups IH]; intros store store'; simpl.
  - now intros [= <-].
  - destruct (scan_actions keyword history_actions show g store)
      as [mid|] eqn:Hg; [|discriminate].
    intros Hrest. rewrite flat_map_app, add_each_app.
    rewrite <- (scan_actions_calls _ _ _ _ _ _ Hg). now apply IH.
Qed.

(** A search is its calls, one after the other. *)
Lemma history_and_actions_calls keyword history_actions groups show store rows :
  keyword <> Some EmptyString ->
  action_search_history_and_actions keyword history_actions groups show store
  = Some rows ->
  rows = add_each (history_calls history_actions ++
                   catalogue_calls keyword history_actions show groups)
           store.
Proof.
  intros Hk. unfold action_search_history_and_actions.
  assert (Hne : g_strcmp0_eq keyword (Some EmptyString) = false).
  { destruct keyword as [k|]; [|reflexivity]. simpl.
    apply String.eqb_neq. congruence. }
  rewrite Hne. intros Hs. apply scan_groups_calls in Hs.
  now rewrite add_each_app, <- add_history_calls.
Qed.

Lemma In_insert_by_section (new r : ResultRow) : forall rows,
  In r (insert_by_section new rows) <-> r = new \/ In r rows.
Proof.
  induction rows as [|x rows IH]; simpl.
  - split; [intros [<- | []]; now left | intros [-> | []]; now left].
  - destruct (RESULT_SECTION x >? RESULT_SECTION new)%Z; simpl.
    + split; [intros [<- | H]; auto | intros [-> | H]; auto].
    + rewrite IH. tauto.
Qed.

Lemma In_add_each (r : ResultRow) : forall calls store,
  In r (add_each calls store) <->
  In r store \/
  exists c, In c calls /\ has_label (fst c) = true /\ r = row_of c.
Proof.
  induction calls as [|[a s] calls IH]; intros store; cbn [add_each].
  - split; [now left | intros [H | (c & [] & _)]; exact H].
  - rewrite IH, add_to_results_list_unfold.
    destruct (has_label a) eqn:Hl.
    + rewrite In_insert_by_section. split.
      * intros [[-> | H] | (c & Hc & Hlc & Hr)].
        -- right. exists (a, s). simpl. auto.
        -- now left.
        -- right. exists c. simpl. auto.
      * intros [H | (c & [<- | Hc] & Hlc & Hr)].
        -- left. now right.
        -- left. now left.
        -- right. exists c. auto.
    + split.
      * intros [H | (c & Hc & Hlc & Hr)]; [now left|].
        right. exists c. simpl. auto.
      * intros [H | (c & [<- | Hc] & Hlc & Hr)]; [now left | |].
        -- simpl in Hlc. congruence.
        -- right. exists c. auto.
Qed.



Lemma search_defined keyword history_actions groups show store :
  keyword <> Some EmptyString ->
  can_scan keyword (List.concat groups) ->
  exists rows,
    action_search_history_and_actions keyword history_actions groups show
      store = Some rows /\
    rows = add_each (history_calls history_actions ++
                     catalogue_calls keyword history_actions show groups)
             store.
Proof.
  intros Hk Hc.
  assert (Hne : g_strcmp0_eq keyword (Some EmptyString) = false).
  { destruct keyword as [k|]; [|reflexivity]. simpl.
    apply String.eqb_neq. congruence. }
  destruct (scan_groups_defined keyword history_actions show groups
              (add_history history_actions store) Hc) as [rows Hrows].
  exists rows.
  assert (Hrun : action_search_history_and_actions keyword history_actions
                   groups show store = Some rows).
  { unfold action_search_history_and_actions. now rewrite Hne. }
  split; [exact Hrun|].
  now apply history_and_actions_calls.
Qed.



Lemma search_is_its_calls keyword history_actions groups show store rows :
  action_search_history_and_actions keyword history_actions groups show store
  = Some rows ->
  rows = add_each (search_calls keyword history_actions show groups) store.
Proof.
  unfold search_calls.
  destruct (g_strcmp0_eq keyword (Some EmptyString)) eqn:Hk.
  - unfold action_search_history_and_actions. rewrite Hk. now intros [= <-].
  - apply history_and_actions_calls. intros ->. discriminate Hk.
Qed.

(** A search runs to its end exactly when it returns at once, on the empty
    keyword, or no call of the matcher reads through a NULL label. *)
Lemma search_runs_iff keyword history_actions groups show store :
  (exists rows,
      action_search_history_and_actions keyword history_actions groups show
        store = Some rows)
  <-> keyword = Some EmptyString \/
      reads_no_null_label keyword show (List.concat groups).
Proof.
  destruct (g_strcmp0_eq keyword (Some EmptyString)) eqn:Hk.
  - split; [|intros _; unfold action_search_history_and_actions;
              rewrite Hk; now exists store].
    intros _. left. destruct keyword as [k|]; [|discriminate Hk].
    simpl in Hk. apply String.eqb_eq in Hk. now subst k.
  - assert (Hne : keyword <> Some EmptyString)
      by (intros ->; discriminate Hk).
    rewrite (search_defined_iff _ _ _ _ _ Hne).
    split; [now right | intros [He | Hr]; [contradiction | exact Hr]].
Qed.

(** X7.  Whenever a search from the cleared list runs to its end, the list
    it has built is sorted by section, and within a section the rows are in
    the order of the calls: the history actions first, in the order of the
    history, then the actions of the catalogue in the order of the scan (on
    the empty keyword no call is made and the list stays empty).  The
    search runs to its end exactly when the keyword is the empty string or
    NULL, or every action of the catalogue that the scan hands to the
    matcher has a label. *)
Theorem search_result_sorted_in_scan_order
    (keyword : option string) (history_actions : list GtkAction)
    (groups : list (list GtkAction)) (search_show_unavailable : bool) :
  (forall rows,
      action_search_history_and_actions keyword history_actions groups
        search_show_unavailable [] = Some rows ->
      StronglySorted Z.le (map RESULT_SECTION rows) /\
      forall s,
        filter (fun r => (RESULT_SECTION r =? s)%Z) rows
        = map row_of
            (filter (fun c => (snd c =? s)%Z && has_label (fst c))
               (search_calls keyword history_actions
                  search_show_unavailable groups))) /\
  ((exists rows,
       action_search_history_and_actions keyword history_actions groups
         search_show_unavailable [] = Some rows)
   <-> keyword = Some EmptyString \/
       reads_no_null_label keyword search_show_unavailable
         (List.concat groups)).
Proof.
  split; [|apply search_runs_iff].
  intros rows Hrun. apply search_is_its_calls in Hrun. subst rows.
  destruct (add_each_sorted_stable
              (search_calls keyword history_actions search_show_unavailable
                 groups) [])
    as [Hsorted Hstable]; [constructor|].
  split; [exact Hsorted|]. intros s. exact (Hstable s).
Qed.

Lemma search_result_sorted_in_scan_order_witness :
  let blur :=
    {| gtk_action_get_name := "filters-gaussian-blur";
       stripped_label := Some "Gaussian Blur";
       gtk_action_get_tooltip := None;
       gtk_action_get_sensitive := true |} in
  let bucket :=
    {| gtk_action_get_name := "tools-bucket-fill";
       stripped_label := Some "Bucket Fill";
       gtk_action_get_tooltip := None;
       gtk_action_get_sensitive := true |} in
  let rows := [row_of (bucket, 1%Z); row_of (blur, 2%Z)] in
  action_search_history_and_actions (Some "b") [] [[blur; bucket]] false []
  = Some rows /\
  StronglySorted Z.le (map RESULT_SECTION rows) /\
  filter (fun r => (RESULT_SECTION r =? 2)%Z) rows = [row_of (blur, 2%Z)].
Proof.
  intros blur bucket rows.
  assert (Hrun : action_search_history_and_actions (Some "b") []
                   [[blur; bucket]] false [] = Some rows) by reflexivity.
  split; [exact Hrun|].
  destruct (proj1 (search_result_sorted_in_scan_order (Some "b") []
                     [[blur; bucket]] false) rows Hrun) as [Hsorted Hstable].
  split; [exact Hsorted | exact (Hstable 2%Z)].
Defined.

Lemma insert_by_section_past (new : ResultRow) : forall top rest,
  Forall (fun r => (RESULT_SECTION r <= RESULT_SECTION new)%Z) top ->
  insert_by_section new (top ++ rest) = top ++ insert_by_section new rest.
Proof.
  induction top as [|x top IH]; intros rest Ht; simpl; [reflexivity|].
  inversion Ht; subst.
  destruct (Z.gtb_spec (RESULT_SECTION x) (RESULT_SECTION new)); [lia|].
  now rewrite IH.
Qed.

Lemma add_each_past : forall calls top rest,
  Forall (fun r => (RESULT_SECTION r <= 0)%Z) top ->
  Forall (fun c => (1 <= snd c)%Z) calls ->
  add_each calls (top ++ rest) = top ++ add_each calls rest.
Proof.
  induction calls as [|[a s] calls IH]; intros top rest Ht Hc;
    cbn [add_each]; [reflexivity|].
  inversion Hc; subst. simpl in *.
  rewrite !add_to_results_list_unfold.
  destruct (has_label a); [|now apply IH].
  rewrite insert_by_section_past; [now apply IH|].
  eapply Forall_impl; [|exact Ht]. intros r Hr. simpl in *. lia.
Qed.

Lemma catalogue_calls_in_range keyword history_actions show groups k :
  keyword = Some k ->
  Forall (fun c => (1 <= snd c <= 4)%Z)
    (catalogue_calls keyword history_actions show groups).
Proof.
  intros ->. apply Forall_forall. intros [a s] Hin.
  unfold catalogue_calls in Hin. apply in_flat_map in Hin.
  destruct Hin as (a' & _ & Hin). unfold catalogue_call in Hin.
  destruct (skipped_name _); [destruct Hin|].
  destruct (_ && _); [destruct Hin|].
  destruct (action_search_match_keyword a' (Some k)) as [[|section]|] eqn:E;
    try destruct Hin.
  destruct (is_redundant _ _); [destruct Hin|].
  destruct Hin as [[= <- <-] | []]. simpl.
  eapply match_section_range; exact E.
Qed.

(** X8.  With a keyword that is not empty, whenever the search from the
    cleared list runs to its end, the history actions are on top: the list
    starts with the history actions that have a label, in the order of the
    history, and every row below them is in one of the sections 1 to 4.
    The search runs to its end exactly when every action of the catalogue
    that the scan hands to the matcher has a label. *)
Theorem history_actions_on_top
    (k : string) (history_actions : list GtkAction)
    (groups : list (list GtkAction)) (search_show_unavailable : bool) :
  k <> EmptyString ->
  (forall rows,
      action_search_history_and_actions (Some k) history_actions groups
        search_show_unavailable [] = Some rows ->
      exists below,
        rows = map history_row (filter has_label history_actions) ++ below /\
        Forall (fun r => (1 <= RESULT_SECTION r <= 4)%Z) below) /\
  ((exists rows,
       action_search_history_and_actions (Some k) history_actions groups
         search_show_unavailable [] = Some rows)
   <-> Forall (fun a => reaches_matcher search_show_unavailable a = true ->
                        stripped_label a <> None) (List.concat groups)).
Proof.
  intros Hk.
  assert (Hne : Some k <> Some EmptyString) by congruence.
  split.
  - intros rows Hrun.
    apply (history_and_actions_calls _ _ _ _ _ _ Hne) in Hrun. subst rows.
    pose proof (catalogue_calls_in_range (Some k) history_actions
                  search_show_unavailable groups k eq_refl) as Hrange.
    eexists.
    rewrite add_each_app, <- add_history_calls.
    rewrite add_history_rows by constructor. cbn [app].
    rewrite <- (app_nil_r (map history_row
                             (filter has_label history_actions))) at 1.
    rewrite add_each_past.
    + split; [reflexivity|].
      apply Forall_forall. intros r Hr. apply In_add_each in Hr.
      destruct Hr as [[] | (c & Hc & _ & ->)].
      rewrite Forall_forall in Hrange. apply (Hrange c Hc).
    + apply Forall_forall. intros r Hr. apply in_map_iff in Hr.
      destruct Hr as (h & <- & _). simpl. lia.
    + eapply Forall_impl; [|exact Hrange]. intros c Hc. simpl in Hc. lia.
  - rewrite (search_defined_iff _ _ _ _ _ Hne). unfold reads_no_null_label.
    split; [intros [Hnone | Hall]; [discriminate | exact Hall] | now right].
Qed.

Lemma history_actions_on_top_witness :
  let blur :=
    {| gtk_action_get_name := "filters-gaussian-blur";
       stripped_label := Some "Gaussian Blur";
       gtk_action_get_tooltip := None;
       gtk_action_get_sensitive := true |} in
  let bucket :=
    {| gtk_action_get_name := "tools-bucket-fill";
       stripped_label := Some "Bucket Fill";
       gtk_action_get_tooltip := None;
       gtk_action_get_sensitive := true |} in
  let popup :=
    {| gtk_action_get_name := "tools-popup";
       stripped_label := None;
       gtk_action_get_tooltip := None;
       gtk_action_get_sensitive := true |} in
  exists rows below,
    action_search_history_and_actions (Some "b") [blur]
      [[bucket; blur; popup]] false [] = Some rows /\
    rows = map history_row (filter has_label [blur]) ++ below /\
    Forall (fun r => (1 <= RESULT_SECTION r <= 4)%Z) below.
Proof.
  intros blur bucket popup.
  destruct (history_actions_on_top "b" [blur] [[bucket; blur; popup]] false)
    as [Htop Hruns]; [discriminate|].
  destruct (proj2 Hruns) as [rows Hrun].
  { repeat constructor; simpl; intros; discriminate. }
  destruct (Htop rows Hrun) as (below & Hrows & Hbelow).
  exists rows, below. auto.
Defined.

Lemma add_each_at_zero : forall calls store,
  Forall (fun c => snd c = 0%Z) calls ->
  Forall (fun x => (x <= 0)%Z) (sections store) ->
  add_each calls store
  = store ++ map row_of (filter (fun c => has_label (fst c)) calls).
Proof.
  induction calls as [|[a s] calls IH]; intros store Hc Hs; cbn [add_each].
  - simpl. now rewrite app_nil_r.
  - inversion Hc; subst. simpl in *. subst s.
    rewrite add_to_results_list_unfold.
    destruct (has_label a); [|now apply IH].
    rewrite insert_by_section_last by exact Hs.
    rewrite IH; [simpl; now rewrite <- app_assoc | assumption |].
    unfold sections. rewrite map_app. apply Forall_app. split; [exact Hs|].
    constructor; [simpl; lia | constructor].
Qed.

Lemma catalogue_calls_without_keyword history_actions show : forall actions,
  Forall (fun c => snd c = 0%Z)
    (flat_map (catalogue_call None history_actions show) actions) /\
  map row_of
    (filter (fun c => has_label (fst c))
       (flat_map (catalogue_call None history_actions show) actions))
  = map (fun a => row_of (a, 0%Z))
      (filter (shown_without_keyword history_actions show) actions).
Proof.
  induction actions as [|a actions [IHz IHr]]; simpl.
  - split; [constructor | reflexivity].
  - unfold catalogue_call at 1 3, shown_without_keyword at 1.
    destruct (skipped_name _); simpl; [now split|].
    destruct (gtk_action_get_sensitive a), show; simpl; try (now split);
      (destruct (is_redundant _ _); simpl; [now split|];
       split; [constructor; [reflexivity | exact IHz]|];
       destruct (has_label a); simpl; now rewrite IHr).
Qed.

(** X9.  Without a keyword a search lists, at section 0 and in this order:
    the history actions that have a label, then every action of the
    catalogue that has a label, is not passed over for its name, is
    sensitive unless unavailable actions are to be shown, and has no
    namesake among the history actions, in the order of the scan.  The run
    is defined whatever the labels are. *)
Theorem search_without_keyword_lists_all
    (history_actions : list GtkAction) (groups : list (list GtkAction))
    (search_show_unavailable : bool) :
  action_search_history_and_actions None history_actions groups
    search_show_unavailable []
  = Some
      (map history_row (filter has_label history_actions) ++
       map (fun a => row_of (a, 0%Z))
         (filter (shown_without_keyword history_actions
                    search_show_unavailable) (List.concat groups))).
Proof.
  destruct (search_defined None history_actions groups
              search_show_unavailable [])
    as (rows & Hrun & ->); [discriminate | now left |].
  rewrite Hrun. f_equal.
  rewrite add_each_app, <- add_history_calls.
  rewrite add_history_rows by constructor. cbn [app].
  destruct (catalogue_calls_without_keyword history_actions
              search_show_unavailable (List.concat groups)) as [Hz Hr].
  unfold catalogue_calls. rewrite add_each_at_zero; [now rewrite Hr | exact Hz |].
  apply Forall_forall. intros x Hx. apply in_map_iff in Hx.
  destruct Hx as (r & <- & Hr'). apply in_map_iff in Hr'.
  destruct Hr' as (h & <- & _). simpl. lia.
Qed.

End ResultsFacts.

(** ** The window of the dialog *)

Module SearchWindowFacts.

Import ActionSearch ResultsNotions SearchWindow ActionSearchFacts ResultsFacts.

Lemma gint_in_range (z : Z) :
  (-2147483648 <= z < 2147483648)%Z -> gint z = z.
Proof.
  intros Hz. unfold gint, IsoCodes.gint. rewrite Z.mod_small; lia.
Qed.

Lemma window_scrolled_keeps_opacity_ok scroll s :
  opacity_ok s -> opacity_ok (snd (window_scrolled scroll s)).
Proof.
  intros [Hr Hw]. unfold window_scrolled.
  destruct (control scroll); [|now split].
  cbv zeta.
  set (new_opacity := match direction scroll with
                      | GDK_SCROLL_UP => _
                      | GDK_SCROLL_DOWN => _
                      | _ => _
                      end).
  assert (Hnew : (10 <= new_opacity <= 100)%Z).
  { unfold new_opacity.
    destruct (direction scroll); try rewrite gint_in_range by lia; lia. }
  clearbody new_opacity.
  destruct (Z.eqb_spec new_opacity
              (search_dialog_opacity (opacity_config s)));
    cbn [negb snd]; [now split|].
  split; [exact Hnew | reflexivity].
Qed.

(** X10.  Scrolling with Control held never takes the opacity out of the
    range 10 to 100, and the window keeps showing the opacity of the
    configuration, whatever the run of scroll events. *)
Theorem opacity_stays_in_range (scrolls : list GdkEventScroll) (s : Opacity) :
  opacity_ok s -> opacity_ok (scrolled scrolls s).
Proof.
  revert s. induction scrolls as [|scroll rest IH]; intros s Hs; simpl.
  - exact Hs.
  - apply IH. now apply window_scrolled_keeps_opacity_ok.
Qed.

Lemma opacity_stays_in_range_witness :
  let config :=
    {| search_show_unavailable := false;
       search_dialog_x := 0; search_dialog_y := 0;
       search_dialog_width := 400; search_dialog_height := 300;
       search_dialog_opacity := 95 |} in
  let up := {| control := true; direction := GDK_SCROLL_UP |} in
  opacity_ok
    (scrolled [up; up; up]
       {| opacity_config := config; opacity_window := 95 |}).
Proof.
  intros config up. apply opacity_stays_in_range.
  split; [simpl; lia | reflexivity].
Defined.

Lemma scroll_up_step (config : GimpGuiConfig) (window : Z) :
  (10 <= search_dialog_opacity config <= 95)%Z ->
  window_scrolled {| control := true; direction := GDK_SCROLL_UP |}
    {| opacity_config := config; opacity_window := window |}
  = (true,
     {| opacity_config :=
          with_opacity config (search_dialog_opacity config + 5);
        opacity_window := (search_dialog_opacity config + 5)%Z |}).
Proof.
  intros Hr. unfold window_scrolled.
  cbn [control direction opacity_config].
  rewrite (gint_in_range (search_dialog_opacity config + 5)) by lia.
  rewrite Z.min_l by lia.
  destruct (Z.eqb_spec (search_dialog_opacity config + 5)
              (search_dialog_opacity config)); [lia | reflexivity].
Qed.

Lemma scroll_down_step (config : GimpGuiConfig) (window : Z) :
  (15 <= search_dialog_opacity config <= 100)%Z ->
  window_scrolled {| control := true; direction := GDK_SCROLL_DOWN |}
    {| opacity_config := config; opacity_window := window |}
  = (true,
     {| opacity_config :=
          with_opacity config (search_dialog_opacity config - 5);
        opacity_window := (search_dialog_opacity config - 5)%Z |}).
Proof.
  intros Hr. unfold window_scrolled.
  cbn [control direction opacity_config].
  rewrite (gint_in_range (search_dialog_opacity config - 5)) by lia.
  rewrite Z.max_l by lia.
  destruct (Z.eqb_spec (search_dialog_opacity config - 5)
              (search_dialog_opacity config)); [lia | reflexivity].
Qed.

(** X11.  Inside the range a step up is undone by a step down: from an
    opacity between 10 and 95, scrolling up and then down with Control held
    gives back the configuration and the window as they were; from 100 a
    step up changes nothing. *)
Theorem opacity_up_then_down (s : Opacity) :
  opacity_ok s ->
  let up := {| control := true; direction := GDK_SCROLL_UP |} in
  let down := {| control := true; direction := GDK_SCROLL_DOWN |} in
  ((search_dialog_opacity (opacity_config s) <= 95)%Z ->
   snd (window_scrolled down (snd (window_scrolled up s))) = s) /\
  (search_dialog_opacity (opacity_config s) = 100%Z ->
   window_scrolled up s = (true, s)).
Proof.
  intros [Hr Hw] up down.
  destruct s as [config window]. cbn [opacity_config opacity_window] in *.
  subst window.
  split.
  - intros H95. unfold up, down.
    rewrite scroll_up_step by lia. cbn [snd].
    rewrite scroll_down_step
      by (cbn [with_opacity search_dialog_opacity]; lia).
    cbn [snd with_opacity search_dialog_opacity search_show_unavailable
         search_dialog_x search_dialog_y search_dialog_width
         search_dialog_height].
    replace (search_dialog_opacity config + 5 - 5)%Z
      with (search_dialog_opacity config) by lia.
    destruct config; reflexivity.
  - intros H100. unfold window_scrolled, up.
    cbn [control direction opacity_config]. rewrite H100.
    reflexivity.
Qed.

Lemma opacity_up_then_down_witness :
  let config :=
    {| search_show_unavailable := false;
       search_dialog_x := 0; search_dialog_y := 0;
       search_dialog_width := 400; search_dialog_height := 300;
       search_dialog_opacity := 80 |} in
  let s := {| opacity_config := config; opacity_window := 80 |} in
  snd (window_scrolled {| control := true; direction := GDK_SCROLL_DOWN |}
         (snd (window_scrolled
                 {| control := true; direction := GDK_SCROLL_UP |} s)))
  = s.
Proof.
  intros config s.
  assert (Hok : opacity_ok s) by (split; [simpl; lia | reflexivity]).
  apply (proj1 (opacity_up_then_down s Hok)).
  simpl. lia.
Defined.

(** *** The place of the window *)

Lemma with_geometry_same (config : GimpGuiConfig) :
  with_geometry config (search_dialog_x config) (search_dialog_y config)
    (search_dialog_width config) (search_dialog_height config) = config.
Proof. destruct config; reflexivity. Qed.

Lemma update_position_valid (g : GdkGeometry) (config : GimpGuiConfig) :
  on_screen g (search_dialog_x config) (search_dialog_y config)
    (search_dialog_width config) (search_dialog_height config) ->
  (screen_width g < 2147483648)%Z -> (screen_height g < 2147483648)%Z ->
  action_search_update_position g config
  = (config,
     {| default_width := search_dialog_width config; default_height := 1;
        move_x := search_dialog_x config;
        move_y := search_dialog_y config |}).
Proof.
  intros (Hx & Hw & Hxw & Hy & Hh & Hyh) Hsw Hsh.
  unfold action_search_update_position.
  destruct (Z.ltb_spec (search_dialog_width config) 0); [lia|].
  destruct (Z.gtb_spec (search_dialog_width config) (screen_width g));
    [lia|].
  destruct (Z.ltb_spec (search_dialog_height config) 0); [lia|].
  destruct (Z.gtb_spec (search_dialog_height config) (screen_height g));
    [lia|].
  rewrite (gint_in_range (search_dialog_x config + search_dialog_width config))
    by lia.
  rewrite (gint_in_range
             (search_dialog_y config + search_dialog_height config)) by lia.
  destruct (Z.ltb_spec (search_dialog_x config) 0); [lia|].
  destruct (Z.gtb_spec (search_dialog_x config + search_dialog_width config)
              (screen_width g)); [lia|].
  destruct (Z.ltb_spec (search_dialog_y config) 0); [lia|].
  destruct (Z.gtb_spec (search_dialog_y config + search_dialog_height config)
              (screen_height g)); [lia|].
  simpl. now rewrite with_geometry_same.
Qed.

(** X12.  A saved place and size that lie on the screen are left as they
    are: [action_search_update_position] changes nothing in the
    configuration and moves the window to the saved place, with the saved
    width as its default width. *)
Theorem update_position_keeps_valid_geometry
    (g : GdkGeometry) (config : GimpGuiConfig) :
  on_screen g (search_dialog_x config) (search_dialog_y config)
    (search_dialog_width config) (search_dialog_height config) ->
  (screen_width g < 2147483648)%Z -> (screen_height g < 2147483648)%Z ->
  action_search_update_position g config
  = (config,
     {| default_width := search_dialog_width config; default_height := 1;
        move_x := search_dialog_x config;
        move_y := search_dialog_y config |}).
Proof.
  intros (Hx & Hw & Hxw & Hy & Hh & Hyh) Hsw Hsh.
  unfold action_search_update_position.
  destruct (Z.ltb_spec (search_dialog_width config) 0); [lia|].
  destruct (Z.gtb_spec (search_dialog_width config) (screen_width g));
    [lia|].
  destruct (Z.ltb_spec (search_dialog_height config) 0); [lia|].
  destruct (Z.gtb_spec (search_dialog_height config) (screen_height g));
    [lia|].
  rewrite (gint_in_range (search_dialog_x config + search_dialog_width config))
    by lia.
  rewrite (gint_in_range
             (search_dialog_y config + search_dialog_height config)) by lia.
  destruct (Z.ltb_spec (search_dialog_x config) 0); [lia|].
  destruct (Z.gtb_spec (search_dialog_x config + search_dialog_width config)
              (screen_width g)); [lia|].
  destruct (Z.ltb_spec (search_dialog_y config) 0); [lia|].
  destruct (Z.gtb_spec (search_dialog_y config + search_dialog_height config)
              (screen_height g)); [lia|].
  simpl. now rewrite with_geometry_same.
Qed.

Lemma update_position_keeps_valid_geometry_witness :
  let g := {| parent_x := 0; parent_y := 0;
              parent_width := 1280; parent_height := 800;
              screen_width := 1920; screen_height := 1080 |} in
  let config :=
    {| search_show_unavailable := false;
       search_dialog_x := 100; search_dialog_y := 50;
       search_dialog_width := 400; search_dialog_height := 300;
       search_dialog_opacity := 80 |} in
  action_search_update_position g config
  = (config,
     {| default_width := 400; default_height := 1;
        move_x := 100; move_y := 50 |}).
Proof.
  intros g config.
  apply (update_position_keeps_valid_geometry g config);
    [unfold on_screen; simpl; lia | simpl; lia | simpl; lia].
Defined.

(** X13.  When the size of the parent window is within the screen,
    [action_search_update_position] settles at once: a second call on the
    configuration it leaves changes nothing and asks the window for the
    same place and size. *)
Theorem update_position_settles (g : GdkGeometry) (config : GimpGuiConfig) :
  (0 <= parent_width g <= screen_width g)%Z ->
  (0 <= parent_height g <= screen_height g)%Z ->
  action_search_update_position g
    (fst (action_search_update_position g config))
  = action_search_update_position g config.
Proof.
  intros Hpw Hph. unfold action_search_update_position.
  cbn [fst with_geometry search_dialog_x search_dialog_y search_dialog_width
       search_dialog_height search_show_unavailable search_dialog_opacity].
  set (w := if (search_dialog_width config <? 0)%Z then _ else _).
  set (h := if (search_dialog_height config <? 0)%Z then _ else _).
  assert (Hw : (0 <= w <= screen_width g)%Z).
  { unfold w.
    destruct (Z.ltb_spec (search_dialog_width config) 0).
    - rewrite Z.quot_div_nonneg by lia.
      split; [apply Z.div_pos; lia|].
      assert (parent_width g / 2 <= parent_width g)%Z
        by (apply Z.div_le_upper_bound; lia).
      lia.
    - destruct (Z.gtb_spec (search_dialog_width config) (screen_width g));
        lia. }
  assert (Hh : (0 <= h <= screen_height g)%Z).
  { unfold h.
    destruct (Z.ltb_spec (search_dialog_height config) 0).
    - rewrite Z.quot_div_nonneg by lia.
      split; [apply Z.div_pos; lia|].
      assert (parent_height g / 2 <= parent_height g)%Z
        by (apply Z.div_le_upper_bound; lia).
      lia.
    - destruct (Z.gtb_spec (search_dialog_height config) (screen_height g));
        lia. }
  clearbody w h.
  destruct (Z.ltb_spec w 0); [lia|].
  destruct (Z.gtb_spec w (screen_width g)); [lia|].
  destruct (Z.ltb_spec h 0); [lia|].
  destruct (Z.gtb_spec h (screen_height g)); [lia|].
  set (fx := gint (parent_x g + Z.quot (gint (parent_width g - w)) 2)).
  set (fy := gint (parent_y g + Z.quot (gint (parent_height g - h)) 2)).
  destruct ((search_dialog_x config <? 0)%Z ||
            (gint (search_dialog_x config + w) >? screen_width g)%Z) eqn:Ex;
    destruct ((search_dialog_y config <? 0)%Z ||
              (gint (search_dialog_y config + h) >? screen_height g)%Z)
      eqn:Ey;
    rewrite ?Ex, ?Ey;
    repeat match goal with
           | |- context [if ?b then ?v else ?v] =>
               replace (if b then v else v) with v by (destruct b; reflexivity)
           end;
    reflexivity.
Qed.

Lemma update_position_settles_witness :
  let g := {| parent_x := 100; parent_y := 100;
              parent_width := 1280; parent_height := 800;
              screen_width := 1920; screen_height := 1080 |} in
  let config :=
    {| search_show_unavailable := false;
       search_dialog_x := -1; search_dialog_y := 3000;
       search_dialog_width := -1; search_dialog_height := 5000;
       search_dialog_opacity := 80 |} in
  action_search_update_position g
    (fst (action_search_update_position g config))
  = action_search_update_position g config.
Proof.
  intros g config.
  apply (update_position_settles g config); simpl; lia.
Defined.

(** X14.  With the parent window on the screen and a saved place within
    gint reach of it, [action_search_update_position] leaves a size that is
    within the screen; and each way in which the dialog is no larger than
    the parent window, it leaves the dialog on the screen. *)
Theorem update_position_on_screen (g : GdkGeometry) (config : GimpGuiConfig) :
  parent_on_screen g ->
  (-1073741824 <= search_dialog_x config < 1073741824)%Z ->
  (-1073741824 <= search_dialog_y config < 1073741824)%Z ->
  let after := fst (action_search_update_position g config) in
  (0 <= search_dialog_width after <= screen_width g)%Z /\
  (0 <= search_dialog_height after <= screen_height g)%Z /\
  ((search_dialog_width after <= parent_width g)%Z ->
   (0 <= search_dialog_x after)%Z /\
   (search_dialog_x after + search_dialog_width after <= screen_width g)%Z) /\
  ((search_dialog_height after <= parent_height g)%Z ->
   (0 <= search_dialog_y after)%Z /\
   (search_dialog_y after + search_dialog_height after
    <= screen_height g)%Z).
Proof.
  intros (Hpx & Hpw & Hpxw & Hpy & Hph & Hpyh & Hsw & Hsh) Hx Hy after.
  unfold after, action_search_update_position.
  cbn [fst with_geometry search_dialog_x search_dialog_y search_dialog_width
       search_dialog_height].
  set (w := if (search_dialog_width config <? 0)%Z then _ else _).
  set (h := if (search_dialog_height config <? 0)%Z then _ else _).
  assert (Hw : (0 <= w <= screen_width g)%Z).
  { unfold w.
    destruct (Z.ltb_spec (search_dialog_width config) 0).
    - rewrite Z.quot_div_nonneg by lia.
      split; [apply Z.div_pos; lia|].
      assert (parent_width g / 2 <= parent_width g)%Z
        by (apply Z.div_le_upper_bound; lia).
      lia.
    - destruct (Z.gtb_spec (search_dialog_width config) (screen_width g));
        lia. }
  assert (Hh : (0 <= h <= screen_height g)%Z).
  { unfold h.
    destruct (Z.ltb_spec (search_dialog_height config) 0).
    - rewrite Z.quot_div_nonneg by lia.
      split; [apply Z.div_pos; lia|].
      assert (parent_height g / 2 <= parent_height g)%Z
        by (apply Z.div_le_upper_bound; lia).
      lia.
    - destruct (Z.gtb_spec (search_dialog_height config) (screen_height g));
        lia. }
  clearbody w h.
  split; [exact Hw|]. split; [exact Hh|].
  assert (Hcentre : forall p size v screen,
    (0 <= p)%Z -> (0 <= size)%Z -> (p + size <= screen)%Z ->
    (screen < 1073741824)%Z -> (0 <= v <= size)%Z ->
    (0 <= gint (p + Z.quot (gint (size - v)) 2))%Z /\
    (gint (p + Z.quot (gint (size - v)) 2) + v <= screen)%Z).
  { intros p size v screen Hp Hs Hps Hscr Hv.
    rewrite (gint_in_range (size - v)) by lia.
    rewrite Z.quot_div_nonneg by lia.
    assert (0 <= (size - v) / 2)%Z by (apply Z.div_pos; lia).
    assert (2 * ((size - v) / 2) <= size - v)%Z
      by (apply Z.mul_div_le; lia).
    rewrite gint_in_range by lia. lia. }
  split.
  - intros Hfit.
    rewrite (gint_in_range (search_dialog_x config + w)) by lia.
    destruct (Z.ltb_spec (search_dialog_x config) 0); simpl.
    + apply Hcentre; lia.
    + destruct (Z.gtb_spec (search_dialog_x config + w) (screen_width g)).
      * apply Hcentre; lia.
      * lia.
  - intros Hfit.
    rewrite (gint_in_range (search_dialog_y config + h)) by lia.
    destruct (Z.ltb_spec (search_dialog_y config) 0); simpl.
    + apply Hcentre; lia.
    + destruct (Z.gtb_spec (search_dialog_y config + h) (screen_height g)).
      * apply Hcentre; lia.
      * lia.
Qed.

Lemma update_position_on_screen_witness :
  let g := {| parent_x := 100; parent_y := 100;
              parent_width := 1280; parent_height := 800;
              screen_width := 1920; screen_height := 1080 |} in
  let config :=
    {| search_show_unavailable := false;
       search_dialog_x := 1800; search_dialog_y := -5;
       search_dialog_width := 400; search_dialog_height := -1;
       search_dialog_opacity := 80 |} in
  let after := fst (action_search_update_position g config) in
  (0 <= search_dialog_width after <= 1920)%Z /\
  (0 <= search_dialog_height after <= 1080)%Z /\
  ((search_dialog_width after <= 1280)%Z ->
   (0 <= search_dialog_x after)%Z /\
   (search_dialog_x after + search_dialog_width after <= 1920)%Z) /\
  ((search_dialog_height after <= 800)%Z ->
   (0 <= search_dialog_y after)%Z /\
   (search_dialog_y after + search_dialog_height after <= 1080)%Z).
Proof.
  intros g config.
  apply (update_position_on_screen g config);
    [unfold parent_on_screen; simpl; lia | simpl; lia | simpl; lia].
Defined.

(** X15.  What [window_configured] saves, [action_search_update_position]
    takes back as it is: after a configure event of the visible dialog that
    lies on the screen, with the list shown, the next
    [action_search_update_position] leaves the saved place and size alone
    and moves the window to where it was. *)
Theorem saved_geometry_is_restored
    (g : GdkGeometry) (e : ConfigureEvent) (config : GimpGuiConfig) :
  is_configure e = true -> window_visible e = true ->
  list_view_visible e = true ->
  on_screen g (position_x e) (position_y e) (size_width e) (size_height e) ->
  (screen_width g < 2147483648)%Z -> (screen_height g < 2147483648)%Z ->
  action_search_update_position g (window_configured e config)
  = (with_geometry config (position_x e) (position_y e) (size_width e)
       (size_height e),
     {| default_width := size_width e; default_height := 1;
        move_x := position_x e; move_y := position_y e |}).
Proof.
  intros Hc Hv Hl Hon Hsw Hsh.
  assert (Hsaved : window_configured e config
                   = with_geometry config (position_x e) (position_y e)
                       (size_width e) (size_height e)).
  { unfold window_configured. rewrite Hc, Hv, Hl. simpl.
    destruct Hon as (Hx & _ & _ & Hy & _).
    destruct (Z.ltb_spec (position_x e) 0); [lia|].
    destruct (Z.ltb_spec (position_y e) 0); [lia|]. reflexivity. }
  rewrite Hsaved.
  now rewrite update_position_valid.
Qed.

Lemma saved_geometry_is_restored_witness :
  let g := {| parent_x := 0; parent_y := 0;
              parent_width := 1280; parent_height := 800;
              screen_width := 1920; screen_height := 1080 |} in
  let e := {| is_configure := true; window_visible := true;
              position_x := 700; position_y := 20;
              size_width := 500; size_height := 350;
              list_view_visible := true |} in
  let config :=
    {| search_show_unavailable := false;
       search_dialog_x := 0; search_dialog_y := 0;
       search_dialog_width := 100; search_dialog_height := 100;
       search_dialog_opacity := 80 |} in
  action_search_update_position g (window_configured e config)
  = (with_geometry config 700 20 500 350,
     {| default_width := 500; default_height := 1;
        move_x := 700; move_y := 20 |}).
Proof.
  intros g e config.
  apply (saved_geometry_is_restored g e config);
    first [reflexivity | unfold on_screen; simpl; lia].
Defined.

(** *** Typing a keyword *)

(** X23.  Typing and confirming runs the best match.  A key release with
    text in the entry (any key but Escape and Return) runs to its end
    exactly when every action of the catalogue that the scan hands to the
    matcher has a label.  When it does, the list is shown, sorted by
    section, with its first row selected; a Return released next activates
    the action of that first row, whose section no row of the list is
    below, and destroys the dialog, provided the action is sensitive; it
    does nothing of the two when the action is not sensitive or the list is
    empty. *)
Theorem typed_keyword_then_return
    (registry : Registry) (text : string) (key : keyval) (d : Dialog) :
  text <> EmptyString -> key <> GDK_Escape -> key <> GDK_Return ->
  ((exists d1, key_released registry text key d = Some d1) <->
   Forall (fun a =>
             reaches_matcher (search_show_unavailable (config d)) a = true ->
             stripped_label a <> None)
     (List.concat (action_groups registry))) /\
  forall d1,
    key_released registry text key d = Some d1 ->
    exists d2,
      key_released registry text GDK_Return d1 = Some d2 /\
      list_view_shown d1 = true /\
      StronglySorted Z.le (map RESULT_SECTION (results_list (private d1))) /\
      match results_list (private d1) with
      | [] =>
          selection (private d1) = None /\
          activated (private d2) = activated (private d) /\
          dialog (private d2) = dialog (private d)
      | top :: below =>
          selection (private d1) = Some 0%nat /\
          Forall (fun r => (RESULT_SECTION top <= RESULT_SECTION r)%Z) below /\
          if gtk_action_get_sensitive (RESULT_ACTION top)
          then activated (private d2)
               = activated (private d) ++ [RESULT_ACTION top] /\
               dialog (private d2) = false
          else activated (private d2) = activated (private d) /\
               dialog (private d2) = dialog (private d)
      end.
Proof.
  intros Htext Hesc Hret.
  assert (Hne : negb (String.eqb text EmptyString) = true).
  { apply negb_true_iff, String.eqb_neq. exact Htext. }
  assert (Hkey : key_released registry text key d
                 = search_and_show registry (Some text) d).
  { unfold key_released. rewrite Hne. destruct key; congruence. }
  assert (Hk : Some text <> Some EmptyString) by congruence.
  rewrite Hkey. unfold search_and_show.
  pose proof (search_defined_iff (Some text)
                (gimp_action_history_search registry (Some text))
                (action_groups registry)
                (search_show_unavailable (config d)) [] Hk) as Hruns.
  destruct (action_search_history_and_actions (Some text)
              (gimp_action_history_search registry (Some text))
              (action_groups registry)
              (search_show_unavailable (config d)) []) as [rows|] eqn:Hrun.
  - split.
    + split.
      * intros _. destruct (proj1 Hruns) as [Hnone | Hall];
          [now exists rows | discriminate | exact Hall].
      * intros _. eexists; reflexivity.
    + intros d1 [= <-].
      apply (history_and_actions_calls _ _ _ _ _ _ Hk) in Hrun.
      destruct (add_each_sorted_stable
                  (history_calls
                     (gimp_action_history_search registry (Some text))
                   ++ catalogue_calls (Some text)
                        (gimp_action_history_search registry (Some text))
                        (search_show_unavailable (config d))
                        (action_groups registry)) [])
        as [Hsorted _]; [constructor|].
      rewrite <- Hrun in Hsorted. clear Hrun Hruns.
      eexists.
      cbn [key_released private with_private].
      split; [reflexivity|]. split; [reflexivity|].
      cbn [with_results results_list]. split; [exact Hsorted|].
      unfold action_search_run_selected, gtk_tree_selection_get_selected.
      cbn [gtk_tree_selection_set_mode selection results_list with_results].
      destruct rows as [|top below].
      * cbn. auto.
      * cbn [nth_error].
        split; [reflexivity|]. split.
        -- unfold sections in Hsorted. cbn [map] in Hsorted.
           inversion Hsorted as [|x l _ Hle]; subst.
           apply Forall_forall. intros r Hr.
           rewrite Forall_forall in Hle. apply Hle. now apply in_map.
        -- destruct (gtk_action_get_sensitive (RESULT_ACTION top)); cbn; auto.
  - split; [|discriminate].
    split; [intros [d1 Hd1]; discriminate|].
    intros Hall. destruct (proj2 Hruns) as [rows Hrows];
      [now right | discriminate].
Qed.

Lemma typed_keyword_then_return_witness :
  let blur :=
    {| gtk_action_get_name := "filters-gaussian-blur";
       stripped_label := Some "Gaussian Blur";
       gtk_action_get_tooltip := None;
       gtk_action_get_sensitive := true |} in
  let bucket :=
    {| gtk_action_get_name := "tools-bucket-fill";
       stripped_label := Some "Bucket Fill";
       gtk_action_get_tooltip := None;
       gtk_action_get_sensitive := true |} in
  let registry :=
    {| gimp_action_history_search := fun _ => [];
       action_groups := [[blur; bucket]] |} in
  let d :=
    {| private := {| dialog := true; results_list := [];
                     selection_mode := GTK_SELECTION_SINGLE;
                     selection := None; activated := [] |};
       config := {| search_show_unavailable := false;
                    search_dialog_x := 0; search_dialog_y := 0;
                    search_dialog_width := 400; search_dialog_height := 300;
                    search_dialog_opacity := 80 |};
       list_view_shown := false;
       window_width := 400; window_height := 1 |} in
  exists d1 d2,
    key_released registry "b" GDK_other_key d = Some d1 /\
    key_released registry "b" GDK_Return d1 = Some d2 /\
    results_list (private d1) = [row_of (bucket, 1%Z); row_of (blur, 2%Z)] /\
    activated (private d2) = [bucket] /\
    dialog (private d2) = false.
Proof.
  intros blur bucket registry d.
  destruct (typed_keyword_then_return registry "b" GDK_other_key d)
    as [Hruns Hthen]; [discriminate | discriminate | discriminate |].
  destruct (proj2 Hruns) as [d1 H1].
  { repeat constructor; simpl; intros; discriminate. }
  destruct (Hthen d1 H1) as (d2 & H2 & _ & _ & Hrows).
  exists d1, d2.
  assert (Hd1 : results_list (private d1)
                = [row_of (bucket, 1%Z); row_of (blur, 2%Z)]).
  { vm_compute in H1. injection H1 as <-. reflexivity. }
  rewrite Hd1 in Hrows. cbn in Hrows.
  destruct Hrows as (_ & _ & Hact & Hdlg).
  auto.
Defined.

End SearchWindowFacts.

(** ** A whole parse *)

Module IsoCodesParseFacts.

Import IsoCodes IsoCodesParse LibcFacts IsoCodesFacts.

Lemma strchr_shorter (c : ascii) : forall s r,
  strchr s c = Some r -> (strlen r <= strlen s)%nat.
Proof.
  induction s as [|a s IH]; intros r; simpl; [discriminate|].
  destruct (Ascii.eqb a c).
  - intros [= <-]. simpl. lia.
  - intros Hr. apply IH in Hr. unfold strlen in *. lia.
Qed.

(** The label the parser keeps of a name is its first segment. *)
Lemma kept_label_first_segment (s : string) :
  match strchr s ";" with
  | Some semicolon => g_strndup s (strlen s - strlen semicolon)
  | None => s
  end = first_segment s.
Proof.
  induction s as [|c s IH]; [reflexivity|].
  cbn [strchr first_segment].
  destruct (Ascii.eqb c ";") eqn:E.
  - unfold g_strndup. now rewrite Nat.sub_diag.
  - destruct (strchr s ";") as [semicolon|] eqn:Hs.
    + pose proof (strchr_shorter _ _ _ Hs) as Hle.
      unfold g_strndup, strlen in *. cbn [String.length].
      replace (S (String.length s) - String.length semicolon)%nat
        with (S (String.length s - String.length semicolon)) by lia.
      cbn [String.substring]. now f_equal.
    + now f_equal.
Qed.

Lemma first_segment_no_semicolon (s : string) :
  has_semicolon (first_segment s) = false.
Proof.
  induction s as [|c s IH]; simpl; [reflexivity|].
  destruct (Ascii.eqb c ";") eqn:E; simpl; [reflexivity|].
  now rewrite E, IH.
Qed.

Lemma nonempty_iff (s : string) : nonempty s = true <-> s <> EmptyString.
Proof.
  unfold nonempty, strlen. destruct s; simpl; split; intros E;
    try discriminate; try reflexivity; congruence.
Qed.

Lemma self_l10n_row `{Libintl} (s : GimpLanguageStore) (lang code : string)
    (p : Process) :
  lang <> EmptyString -> code <> EmptyString ->
  exists p',
    gimp_language_store_self_l10n s (Some lang) (Some code) p
    = (s ++ [(first_segment (looked_up lang code p), code)], p') /\
    (forall variable, g_getenv variable p' = g_getenv variable p) /\
    (code = "en" -> p' = p).
Proof.
  intros Hl Hc. apply nonempty_iff in Hl. apply nonempty_iff in Hc.
  unfold gimp_language_store_self_l10n, looked_up, temporary_language.
  rewrite Hl, Hc. cbn [andb].
  destruct (negb (g_strcmp0_eq (Some code) (Some "en"))) eqn:Hen.
  - match goal with
    | |- context [strchr ?l ";"] =>
        pose proof (kept_label_first_segment l) as Hseg;
        destruct (strchr l ";")
    end;
      (eexists; split;
       [unfold gimp_language_store_add; rewrite <- Hseg; reflexivity|];
       split;
       [intros variable;
        unfold g_getenv, setlocale_native, g_setenv, g_unsetenv,
          write_environ; cbn;
        destruct (environ p "LANGUAGE") eqn:E; cbn;
        destruct (String.eqb_spec variable "LANGUAGE") as [->|];
        congruence
       | intros ->; discriminate]).
  - pose proof (kept_label_first_segment lang) as Hseg.
    destruct (strchr lang ";");
      (exists p; split;
       [unfold gimp_language_store_add; rewrite <- Hseg; reflexivity|];
       split; [reflexivity | reflexivity]).
Qed.

Lemma self_l10n_nothing `{Libintl} (s : GimpLanguageStore) (lang code : option string)
    (p : Process) :
  lang = None \/ lang = Some EmptyString \/
  code = None \/ code = Some EmptyString ->
  gimp_language_store_self_l10n s lang code p = (s, p).
Proof.
  unfold gimp_language_store_self_l10n.
  destruct lang as [[|a l]|], code as [[|b c]|]; simpl;
    try reflexivity;
    intros [E | [E | [E | E]]]; discriminate.
Qed.

(** One call of [gimp_language_store_self_l10n]: rows are added at the end,
    one at most and well formed, and the environment reads as before. *)
Lemma self_l10n_effect `{Libintl} (s : GimpLanguageStore) (lang code : option string)
    (p : Process) :
  exists added p',
    gimp_language_store_self_l10n s lang code p = (s ++ added, p') /\
    (forall variable, g_getenv variable p' = g_getenv variable p) /\
    Forall well_formed_row added /\
    (List.length added <= 1)%nat.
Proof.
  destruct lang as [lang|], code as [code|];
    try (exists [], p; rewrite app_nil_r;
         split; [apply self_l10n_nothing; auto|];
         split; [reflexivity | split; [constructor | simpl; lia]]).
  destruct (string_dec lang EmptyString) as [->|Hl];
    [exists [], p; rewrite app_nil_r;
     split; [apply self_l10n_nothing; auto|];
     split; [reflexivity | split; [constructor | simpl; lia]]|].
  destruct (string_dec code EmptyString) as [->|Hc];
    [exists [], p; rewrite app_nil_r;
     split; [apply self_l10n_nothing; auto|];
     split; [reflexivity | split; [constructor | simpl; lia]]|].
  destruct (self_l10n_row s lang code p Hl Hc) as (p' & Hrow & Henv & _).
  eexists. exists p'. split; [exact Hrow|]. split; [exact Henv|].
  split; [|simpl; lia].
  constructor; [|constructor]. split; [|exact Hc].
  apply first_segment_no_semicolon.
Qed.

(** An entry: three rows at most, added at the end and well formed; the
    environment reads as before; the control fields of the parser are left
    alone. *)
Lemma entry_effect `{Libintl} (parser : IsoCodesParser) (names values : list string)
    (p : Process) :
  exists added p',
    iso_codes_parser_entry parser names values p
    = (with_store parser (store parser ++ added), p') /\
    (forall variable, g_getenv variable p' = g_getenv variable p) /\
    Forall well_formed_row added /\
    (List.length added <= 3)%nat.
Proof.
  unfold iso_codes_parser_entry.
  destruct (entry_attributes names values None None) as [lang code].
  destruct (g_strcmp0_eq code (Some "zh")).
  - destruct (self_l10n_effect (store parser) (Some "Chinese")
                (Some "zh_CN") p) as (a1 & p1 & -> & He1 & Hw1 & Hn1).
    destruct (self_l10n_effect (store parser ++ a1) (Some "Chinese")
                (Some "zh_TW") p1) as (a2 & p2 & -> & He2 & Hw2 & Hn2).
    destruct (self_l10n_effect ((store parser ++ a1) ++ a2)
                (Some "Chinese") (Some "zh_HK") p2)
      as (a3 & p3 & -> & He3 & Hw3 & Hn3).
    exists (a1 ++ a2 ++ a3), p3.
    split; [now rewrite !app_assoc|].
    split; [intros v; now rewrite He3, He2, He1|].
    split; [now rewrite !Forall_app|].
    rewrite !List.length_app. lia.
  - destruct (self_l10n_effect (store parser) lang code p)
      as (a1 & p1 & -> & He1 & Hw1 & Hn1).
    exists a1, p1. repeat split; try assumption. lia.
Qed.

Lemma with_store_same (parser : IsoCodesParser) :
  with_store parser (store parser) = parser.
Proof. destruct parser; reflexivity. Qed.

(** An event adds well-formed rows at the end of the store, or none, and
    leaves the environment as it reads. *)
Lemma handle_effect `{Libintl} (e : event) (parser parser' : IsoCodesParser)
    (p p' : Process) :
  handle e parser p = Some (parser', p') ->
  exists added,
    store parser' = store parser ++ added /\
    Forall well_formed_row added /\
    (forall variable, g_getenv variable p' = g_getenv variable p).
Proof.
  assert (Hnone : forall q, store q = store parser -> p' = p ->
            exists added,
              store q = store parser ++ added /\
              Forall well_formed_row added /\
              (forall variable, g_getenv variable p' = g_getenv variable p)).
  { intros q Hq ->. exists []. rewrite app_nil_r.
    split; [exact Hq|]. split; [constructor | reflexivity]. }
  assert (Hentry : forall names values,
            iso_codes_parser_entry (with_state parser ISO_CODES_IN_ENTRY)
              names values p = (parser', p') ->
            exists added,
              store parser' = store parser ++ added /\
              Forall well_formed_row added /\
              (forall variable, g_getenv variable p' = g_getenv variable p)).
  { intros names values He.
    destruct (entry_effect (with_state parser ISO_CODES_IN_ENTRY) names
                values p) as (added & p1 & He' & Henv & Hw & _).
    rewrite He in He'. injection He' as -> ->.
    exists added. simpl. auto. }
  destruct e as [name names values | name]; cbn [handle].
  - unfold iso_codes_parser_start_element, start_case_start,
      start_case_in_entries, start_case_in_entry.
    destruct (state parser);
      repeat match goal with
             | |- context [if String.eqb ?a ?b then _ else _] =>
                 destruct (String.eqb a b)
             end;
      intros [= E];
      try (injection E as <- <-; now apply Hnone);
      try (now apply (Hentry names values));
      try (subst; now apply Hnone).
  - destruct (iso_codes_parser_end_element name parser) as [q|] eqn:Hq;
      [|discriminate].
    intros [= <- <-]. apply Hnone; [|reflexivity].
    unfold iso_codes_parser_end_element, iso_codes_parser_end_unknown in Hq.
    destruct (state parser);
      try (injection Hq as <-; reflexivity).
    destruct (_ && _); [injection Hq as <-; reflexivity | discriminate].
Qed.

Lemma run_effect `{Libintl} : forall (events : list event)
    (parser parser' : IsoCodesParser) (p p' : Process),
  run events parser p = Some (parser', p') ->
  exists added,
    store parser' = store parser ++ added /\
    Forall well_formed_row added /\
    (forall variable, g_getenv variable p' = g_getenv variable p).
Proof.
  induction events as [|e events IH]; intros parser parser' p p'; cbn [run].
  - intros [= <- <-]. exists []. rewrite app_nil_r.
    split; [reflexivity|]. split; [constructor | reflexivity].
  - destruct (handle e parser p) as [[q pq]|] eqn:Hh; [|discriminate].
    intros Hrun.
    destruct (handle_effect _ _ _ _ _ Hh) as (a1 & Hs1 & Hw1 & He1).
    destruct (IH _ _ _ _ Hrun) as (a2 & Hs2 & Hw2 & He2).
    exists (a1 ++ a2). rewrite Hs2, Hs1, app_assoc.
    split; [reflexivity|]. split; [now apply Forall_app|].
    intros v. now rewrite He2, He1.
Qed.

(** X16.  No sequence of fewer than 2^31 events makes the parser abort,
    however the tags nest: every event is handled, an end-tag that finds
    the parser in ISO_CODES_IN_UNKNOWN finds a positive depth, and after
    the run the parser is in ISO_CODES_IN_UNKNOWN exactly when the depth is
    positive. *)
Theorem parser_never_aborts `{Libintl} (s0 : GimpLanguageStore) (p0 : Process)
    (events : list event) :
  (Z.of_nat (List.length events) < 2147483648)%Z ->
  exists parser p,
    run events (parser_init s0) p0 = Some (parser, p) /\
    (0 <= unknown_depth parser)%Z /\
    (state parser = ISO_CODES_IN_UNKNOWN <-> (0 < unknown_depth parser)%Z) /\
    last_known_state parser <> ISO_CODES_IN_UNKNOWN.
Proof.
  intros Hlen.
  destruct (run_control events 0 (parser_init s0) p0 (parser_init_control s0))
    as (parser & p & Hrun & (Hd & Hiff & Hlast)); [lia|].
  exists parser, p. split; [exact Hrun|].
  split; [lia|]. split; [exact Hiff | exact Hlast].
Qed.

Lemma parser_never_aborts_witness :
  exists parser p,
    @run no_catalogue
      [END_ELEMENT "a"; START_ELEMENT "b" [] []; END_ELEMENT "b";
       END_ELEMENT "c"; START_ELEMENT "iso_639_entry" [] []]
      (parser_init [])
      {| environ := fun _ => None; locale := "C"; environ_writes := [] |}
    = Some (parser, p) /\
    (0 <= unknown_depth parser)%Z /\
    (state parser = ISO_CODES_IN_UNKNOWN <-> (0 < unknown_depth parser)%Z) /\
    last_known_state parser <> ISO_CODES_IN_UNKNOWN.
Proof.
  apply (@parser_never_aborts no_catalogue). reflexivity.
Defined.

(** X17.  A parse only adds to the store and gives the environment back:
    after a run of fewer than 2^31 events the rows that were in the store
    are still there, in place, followed by the rows added; each added row
    has a label without a semicolon and a code that is not empty; and
    every environment variable reads as before the run. *)
Theorem parse_appends_and_restores `{Libintl} (s0 : GimpLanguageStore) (p0 : Process)
    (events : list event) :
  (Z.of_nat (List.length events) < 2147483648)%Z ->
  exists parser p added,
    run events (parser_init s0) p0 = Some (parser, p) /\
    store parser = s0 ++ added /\
    Forall well_formed_row added /\
    (forall variable, g_getenv variable p = g_getenv variable p0).
Proof.
  intros Hlen.
  destruct (run_control events 0 (parser_init s0) p0 (parser_init_control s0))
    as (parser & p & Hrun & _); [lia|].
  destruct (run_effect _ _ _ _ _ Hrun) as (added & Hs & Hw & He).
  exists parser, p, added. auto.
Qed.

Lemma parse_appends_and_restores_witness :
  exists parser p added,
    @run no_catalogue
      [START_ELEMENT "iso_639_entries" [] [];
       START_ELEMENT "iso_639_entry" ["iso_639_1_code"; "name"]
         ["nb"; "Bokmal, Norwegian; Norwegian Bokmal"];
       END_ELEMENT "iso_639_entry"; END_ELEMENT "iso_639_entries"]
      (parser_init [("English", "en")])
      {| environ := fun _ => None; locale := "C"; environ_writes := [] |}
    = Some (parser, p) /\
    store parser = [("English", "en")] ++ added /\
    Forall well_formed_row added /\
    (forall variable,
        g_getenv variable p
        = g_getenv variable
            {| environ := fun _ => None; locale := "C";
               environ_writes := [] |}).
Proof.
  apply (@parse_appends_and_restores no_catalogue). reflexivity.
Defined.

(** *** One entry *)

Lemma entry_attributes_lang : forall names values lang code,
  fst (entry_attributes names values lang code)
  = match last_attribute "name" names values with
    | Some l => Some l
    | None => lang
    end.
Proof.
  induction names as [|name names IH]; intros values lang code.
  - reflexivity.
  - destruct values as [|value values]; [reflexivity|].
    cbn [entry_attributes last_attribute].
    destruct (String.eqb_spec name "name") as [->|Hn].
    { rewrite IH. cbn.
      now destruct (last_attribute "name" names values). }
    assert (Hother : forall l c,
      fst (entry_attributes names values l c)
      = match
          match last_attribute "name" names values with
          | Some later => Some later
          | None => None
          end
        with
        | Some l0 => Some l0
        | None => l
        end).
    { intros l c. rewrite IH.
      now destruct (last_attribute "name" names values). }
    repeat match goal with
           | |- context [if ?b then _ else _] => destruct b
           end; apply Hother.
Qed.

(** X18.  An entry without a name or without a code adds nothing: when the
    entry has no name attribute or an empty one, or none of the three code
    attributes or an empty code, and its code is not "zh",
    [iso_codes_parser_entry] leaves the parser and the process as they
    are. *)
Theorem entry_without_name_or_code_adds_nothing `{Libintl}
    (parser : IsoCodesParser) (names values : list string) (p : Process) :
  entry_code names values <> Some "zh" ->
  last_attribute "name" names values = None \/
  last_attribute "name" names values = Some EmptyString \/
  entry_code names values = None \/
  entry_code names values = Some EmptyString ->
  iso_codes_parser_entry parser names values p = (parser, p).
Proof.
  intros Hzh Hmissing. unfold iso_codes_parser_entry.
  pose proof (entry_attributes_lang names values None None) as Hlang.
  unfold entry_code in *.
  destruct (entry_attributes names values None None) as [lang code].
  cbn [fst snd] in *.
  assert (Hz : g_strcmp0_eq code (Some "zh") = false).
  { destruct code as [c|]; [|reflexivity]. simpl.
    apply String.eqb_neq. congruence. }
  rewrite Hz, self_l10n_nothing; [now rewrite with_store_same|].
  destruct Hmissing as [E | [E | [E | E]]];
    [rewrite E in Hlang | rewrite E in Hlang | |]; auto.
Qed.

Lemma entry_without_name_or_code_adds_nothing_witness :
  let p := {| environ := fun _ => None; locale := "C";
              environ_writes := [] |} in
  @iso_codes_parser_entry no_catalogue (parser_init [])
    ["iso_639_2B_code"; "iso_639_2T_code"] ["ast"; "ast"] p
  = (parser_init [], p).
Proof.
  intros p.
  apply (@entry_without_name_or_code_adds_nothing no_catalogue);
    [discriminate | left; reflexivity].
Defined.

(** X19.  An entry with a name and a code, neither empty and the code not
    "zh", adds exactly one row: its code is the code of the entry and its
    label is the first segment, up to the first semicolon, of the name
    looked up; the environment reads as before.  For the code "en" nothing
    is looked up: the label is the first segment of the name itself and the
    process is untouched. *)
Theorem entry_adds_one_row `{Libintl}
    (parser : IsoCodesParser) (names values : list string) (p : Process)
    (lang code : string) :
  last_attribute "name" names values = Some lang ->
  entry_code names values = Some code ->
  lang <> EmptyString -> code <> EmptyString -> code <> "zh" ->
  exists p',
    iso_codes_parser_entry parser names values p
    = (with_store parser
         (store parser ++ [(first_segment (looked_up lang code p), code)]),
       p') /\
    (forall variable, g_getenv variable p' = g_getenv variable p) /\
    (code = "en" -> looked_up lang code p = lang /\ p' = p).
Proof.
  intros Hname Hcode Hl Hc Hzh. unfold iso_codes_parser_entry.
  pose proof (entry_attributes_lang names values None None) as Hlang.
  unfold entry_code in Hcode. rewrite Hname in Hlang.
  destruct (entry_attributes names values None None) as [l c].
  cbn [fst snd] in *. subst l c.
  assert (Hz : String.eqb code "zh" = false) by now apply String.eqb_neq.
  cbn [g_strcmp0_eq]. rewrite Hz.
  destruct (self_l10n_row (store parser) lang code p Hl Hc)
    as (p' & -> & Henv & Hen).
  exists p'. split; [reflexivity|]. split; [exact Henv|].
  intros ->. split; [reflexivity | now apply Hen].
Qed.

Lemma entry_adds_one_row_witness :
  let p := {| environ := fun _ => None; locale := "C";
              environ_writes := [] |} in
  exists p',
    @iso_codes_parser_entry no_catalogue (parser_init [])
      ["iso_639_2B_code"; "iso_639_1_code"; "name"]
      ["nob"; "nb"; "Bokmal, Norwegian; Norwegian Bokmal"] p
    = (with_store (parser_init []) [("Bokmal, Norwegian", "nb")], p') /\
    (forall variable, g_getenv variable p' = g_getenv variable p) /\
    ("nb" = "en" ->
     @looked_up no_catalogue "Bokmal, Norwegian; Norwegian Bokmal" "nb" p
     = "Bokmal, Norwegian; Norwegian Bokmal" /\ p' = p).
Proof.
  intros p.
  apply (@entry_adds_one_row no_catalogue (parser_init [])
           ["iso_639_2B_code"; "iso_639_1_code"; "name"]
           ["nob"; "nb"; "Bokmal, Norwegian; Norwegian Bokmal"] p
           "Bokmal, Norwegian; Norwegian Bokmal" "nb");
    first [reflexivity | discriminate].
Defined.

(** *** A document *)

(** What an entry adds depends on the store only, not on the control fields
    of the parser. *)
Lemma entry_on_store `{Libintl} (parser : IsoCodesParser)
    (names values : list string) (p : Process) :
  iso_codes_parser_entry parser names values p
  = (with_store parser
       (store (fst (iso_codes_parser_entry (parser_init (store parser))
                      names values p))),
     snd (iso_codes_parser_entry (parser_init (store parser)) names values
            p)).
Proof.
  unfold iso_codes_parser_entry. cbn [store parser_init].
  destruct (entry_attributes names values None None) as [lang code].
  destruct (g_strcmp0_eq code (Some "zh")).
  - destruct (gimp_language_store_self_l10n (store parser) _ _ p) as [s1 p1].
    destruct (gimp_language_store_self_l10n s1 _ _ p1) as [s2 p2].
    destruct (gimp_language_store_self_l10n s2 _ _ p2) as [s3 p3].
    reflexivity.
  - destruct (gimp_language_store_self_l10n (store parser) lang code p)
      as [s1 p1].
    reflexivity.
Qed.

(** Inside an entry every element is skipped, whatever its name: the parser
    follows the nesting with its depth and touches neither the store nor
    the process. *)
Lemma skip_in_entry `{Libintl} : forall children parser p k k',
  skipping_in_entry parser k ->
  open_elements children k = Some k' ->
  (Z.of_nat k + Z.of_nat (List.length children) < 2147483648)%Z ->
  exists parser',
    run children parser p = Some (parser', p) /\
    skipping_in_entry parser' k' /\
    store parser' = store parser.
Proof.
  induction children as [|e children IH]; intros parser p k k' Hk Ho Hn.
  - simpl in Ho. injection Ho as <-. exists parser. auto.
  - cbn [List.length] in Hn. destruct Hk as [Hd Hs].
    destruct e as [nm ns vs | nm]; cbn [run handle].
    + assert (Hstart :
        iso_codes_parser_start_element nm ns vs parser p
        = (iso_codes_parser_start_unknown parser, p)).
      { unfold iso_codes_parser_start_element.
        destruct k; [now rewrite Hs | destruct Hs as [-> _]; reflexivity]. }
      rewrite Hstart.
      destruct (IH (iso_codes_parser_start_unknown parser) p (S k) k')
        as (q & Hq & Hkq & Hsq); [| exact Ho | lia |].
      * split.
        -- cbn [unknown_depth iso_codes_parser_start_unknown].
           rewrite Hd, gint_small by lia. lia.
        -- cbn [state last_known_state iso_codes_parser_start_unknown].
           split; [reflexivity|].
           destruct k.
           ++ rewrite Hd. exact Hs.
           ++ destruct (Z.eqb_spec (unknown_depth parser) 0); [lia|].
              apply Hs.
      * exists q. auto.
    + simpl in Ho. destruct k as [|k]; [discriminate|].
      destruct Hs as [Hs Hl].
      unfold iso_codes_parser_end_element, iso_codes_parser_end_unknown.
      rewrite Hs.
      destruct (Z.gtb_spec (unknown_depth parser) 0); [|lia].
      cbn [andb state_eqb].
      match goal with
      | |- context [run children ?r p] => set (after := r)
      end.
      destruct (IH after p k k') as (q & Hq & Hkq & Hsq); [| exact Ho | lia |].
      * unfold after. split.
        -- cbn [unknown_depth]. rewrite Hd, gint_small by lia. lia.
        -- cbn [state last_known_state unknown_depth].
           rewrite Hd, gint_small by lia.
           destruct k.
           ++ replace (Z.of_nat 1 - 1 =? 0)%Z with true by reflexivity.
              exact Hl.
           ++ destruct (Z.eqb_spec (Z.of_nat (S (S k)) - 1) 0); [lia|].
              auto.
      * exists q. auto.
Qed.

Lemma run_entry `{Libintl} (e : entry_element) (parser : IsoCodesParser)
    (p : Process) :
  state parser = ISO_CODES_IN_ENTRIES -> unknown_depth parser = 0%Z ->
  entry_well_nested e ->
  exists q,
    run (entry_events e) parser p
    = Some (q, snd (add_entries [e] (store parser) p)) /\
    state q = ISO_CODES_IN_ENTRIES /\ unknown_depth q = 0%Z /\
    store q = fst (add_entries [e] (store parser) p).
Proof.
  intros Hs Hd [Hbal Hlen]. unfold entry_events. cbn [run handle].
  unfold iso_codes_parser_start_element, start_case_in_entries.
  rewrite Hs. replace (String.eqb "iso_639_entry" "iso_639_entry") with true
    by reflexivity.
  rewrite entry_on_store. cbn [store with_state add_entries].
  destruct (iso_codes_parser_entry (parser_init (store parser))
              (entry_names e) (entry_values e) p) as [r p1].
  cbn [fst snd].
  set (inside := with_store (with_state parser ISO_CODES_IN_ENTRY) (store r)).
  destruct (skip_in_entry (entry_children e) inside p1 0 0)
    as (q & Hq & [Hdq Hsq] & Hstq);
    [split; [exact Hd | reflexivity] | exact Hbal | lia |].
  rewrite (run_app _ [END_ELEMENT "iso_639_entry"] _ _ _ _ Hq).
  cbn [run handle]. unfold iso_codes_parser_end_element. rewrite Hsq.
  eexists. split; [reflexivity|].
  cbn [state unknown_depth store with_state]. auto.
Qed.

Lemma add_entries_cons `{Libintl} (e : entry_element)
    (rest : list entry_element) (s : GimpLanguageStore) (p : Process) :
  add_entries (e :: rest) s p
  = add_entries rest (fst (add_entries [e] s p)) (snd (add_entries [e] s p)).
Proof.
  cbn [add_entries].
  destruct (iso_codes_parser_entry (parser_init s) (entry_names e)
              (entry_values e) p) as [r p1].
  reflexivity.
Qed.

Lemma run_entries `{Libintl} : forall (entries : list entry_element)
    (parser : IsoCodesParser) (p : Process),
  state parser = ISO_CODES_IN_ENTRIES -> unknown_depth parser = 0%Z ->
  Forall entry_well_nested entries ->
  exists q,
    run (flat_map entry_events entries) parser p
    = Some (q, snd (add_entries entries (store parser) p)) /\
    state q = ISO_CODES_IN_ENTRIES /\ unknown_depth q = 0%Z /\
    store q = fst (add_entries entries (store parser) p).
Proof.
  induction entries as [|e entries IH]; intros parser p Hs Hd Hall.
  - exists parser. cbn. auto.
  - inversion Hall as [|x l He Hrest]; subst.
    destruct (run_entry e parser p Hs Hd He) as (q & Hq & Hsq & Hdq & Hstq).
    destruct (IH q (snd (add_entries [e] (store parser) p)) Hsq Hdq Hrest)
      as (r & Hr & Hsr & Hdr & Hstr).
    exists r. cbn [flat_map].
    rewrite (run_app _ _ _ _ _ _ Hq).
    rewrite (add_entries_cons e entries (store parser) p).
    rewrite Hstq in Hr, Hstr.
    auto.
Qed.

(** X20.  A document, that is the root element iso_639_entries around
    entry elements, each with whatever it contains well nested: the parse
    ends in ISO_CODES_START with depth 0, and the store and the process are
    what [iso_codes_parser_entry] makes of the entries one after the other,
    in the order of the document.  What an entry contains, further entry
    elements among it, adds nothing. *)
Theorem document_adds_its_entries_in_order `{Libintl}
    (s0 : GimpLanguageStore) (p0 : Process)
    (root_names root_values : list string) (entries : list entry_element) :
  Forall entry_well_nested entries ->
  exists parser,
    run (document_events root_names root_values entries) (parser_init s0) p0
    = Some (parser, snd (add_entries entries s0 p0)) /\
    state parser = ISO_CODES_START /\
    unknown_depth parser = 0%Z /\
    store parser = fst (add_entries entries s0 p0).
Proof.
  intros Hall. unfold document_events. cbn [run handle].
  unfold iso_codes_parser_start_element, start_case_start.
  cbn [state parser_init].
  replace (String.eqb "iso_639_entries" "iso_639_entries") with true
    by reflexivity.
  destruct (run_entries entries
              (with_state (parser_init s0) ISO_CODES_IN_ENTRIES) p0
              eq_refl eq_refl Hall) as (q & Hq & Hsq & Hdq & Hstq).
  rewrite (run_app _ [END_ELEMENT "iso_639_entries"] _ _ _ _ Hq).
  cbn [run handle]. unfold iso_codes_parser_end_element. rewrite Hsq.
  eexists. split; [reflexivity|].
  cbn [state unknown_depth store with_state]. auto.
Qed.

Lemma document_adds_its_entries_in_order_witness :
  let p0 := {| environ := fun _ => None; locale := "C";
               environ_writes := [] |} in
  let afar :=
    {| entry_names := ["iso_639_1_code"; "name"];
       entry_values := ["aa"; "Afar"];
       entry_children :=
         [START_ELEMENT "iso_639_entry" ["iso_639_1_code"; "name"]
            ["xx"; "Nested"];
          END_ELEMENT "iso_639_entry"] |} in
  let english :=
    {| entry_names := ["iso_639_1_code"; "name"];
       entry_values := ["en"; "English"];
       entry_children := [] |} in
  exists parser,
    @run no_catalogue (document_events [] [] [afar; english])
      (parser_init []) p0
    = Some (parser, snd (@add_entries no_catalogue [afar; english] [] p0)) /\
    state parser = ISO_CODES_START /\
    unknown_depth parser = 0%Z /\
    store parser = [("Afar", "aa"); ("English", "en")].
Proof.
  intros p0 afar english.
  apply (@document_adds_its_entries_in_order no_catalogue [] p0 [] []
           [afar; english]).
  repeat constructor.
Defined.

(** *** The entry point *)

(** X21.  [iso_codes_parser_init] binds the text domain once: however many
    times it is called, libintl is left as after the first call, with the
    flag set and one call of [bindtextdomain] and of
    [bind_textdomain_codeset] more than before at most. *)
Theorem parser_init_binds_once (localedir : string) (t : Textdomains)
    (n : nat) :
  let after := Nat.iter (S n) (iso_codes_parser_init localedir) t in
  after = iso_codes_parser_init localedir t /\
  initialized after = true /\
  (List.length (bindtextdomain_calls after)
   <= S (List.length (bindtextdomain_calls t)))%nat /\
  (List.length (bind_textdomain_codeset_calls after)
   <= S (List.length (bind_textdomain_codeset_calls t)))%nat.
Proof.
  assert (Hset : initialized (iso_codes_parser_init localedir t) = true).
  { unfold iso_codes_parser_init.
    destruct (initialized t) eqn:E; [exact E | reflexivity]. }
  assert (Hsame : forall u, initialized u = true ->
                    iso_codes_parser_init localedir u = u).
  { intros u Hu. unfold iso_codes_parser_init. now rewrite Hu. }
  assert (Hiter : forall m,
    Nat.iter (S m) (iso_codes_parser_init localedir) t
    = iso_codes_parser_init localedir t).
  { induction m as [|m IH]; [reflexivity|].
    change (Nat.iter (S (S m)) (iso_codes_parser_init localedir) t)
      with (iso_codes_parser_init localedir
              (Nat.iter (S m) (iso_codes_parser_init localedir) t)).
    rewrite IH. now apply Hsame. }
  intros after. unfold after. rewrite Hiter.
  split; [reflexivity|]. split; [exact Hset|].
  unfold iso_codes_parser_init.
  destruct (initialized t); cbn [bindtextdomain_calls
    bind_textdomain_codeset_calls]; rewrite ?List.length_app; simpl; lia.
Qed.

(** X22.  [gimp_language_store_parse_iso_codes] on a file of fewer than
    2^31 events always returns: it keeps the rows the store had, adds only
    well-formed rows after them, and gives the environment back.  Built
    without HAVE_ISO_CODES it returns TRUE and changes nothing; built with
    it, and past its two checks, it returns what the XML parser returned,
    failed parses keeping the rows added so far, and leaves the text domain
    bound. *)
Theorem parse_iso_codes_outcome `{Libintl}
    (have_iso_codes is_language_store error_is_clear : bool)
    (localedir : string) (file : XmlFile)
    (s : GimpLanguageStore) (t : Textdomains) (p : Process) :
  (Z.of_nat (List.length (file_events file)) < 2147483648)%Z ->
  exists o,
    gimp_language_store_parse_iso_codes have_iso_codes is_language_store
      error_is_clear localedir file s t p = Some o /\
    (exists added,
        outcome_store o = s ++ added /\ Forall well_formed_row added) /\
    (forall variable,
        g_getenv variable (outcome_process o) = g_getenv variable p) /\
    (have_iso_codes = false ->
     success o = true /\ outcome_store o = s /\
     outcome_textdomains o = t /\ outcome_process o = p) /\
    (have_iso_codes = true -> is_language_store = true ->
     error_is_clear = true ->
     success o = file_success file /\
     initialized (outcome_textdomains o) = true).
Proof.
  intros Hlen. unfold gimp_language_store_parse_iso_codes.
  assert (Hnone : forall b,
    exists o,
      Some {| success := b; outcome_store := s;
              outcome_textdomains := t; outcome_process := p |} = Some o /\
      (exists added,
          outcome_store o = s ++ added /\ Forall well_formed_row added) /\
      (forall variable,
          g_getenv variable (outcome_process o) = g_getenv variable p) /\
      success o = b /\ outcome_store o = s /\
      outcome_textdomains o = t /\ outcome_process o = p).
  { intros b. eexists. split; [reflexivity|]. cbn.
    split; [exists []; rewrite app_nil_r; split; [reflexivity|constructor]|].
    auto. }
  destruct have_iso_codes.
  - destruct is_language_store; cbn [negb].
    + destruct error_is_clear; cbn [negb].
      * destruct (run_control (file_events file) 0 (parser_init s) p
                    (parser_init_control s)) as (parser & p' & Hrun & _);
          [lia|].
        rewrite Hrun.
        destruct (run_effect _ _ _ _ _ Hrun) as (added & Hs & Hw & He).
        eexists. split; [reflexivity|]. cbn.
        split; [exists added; auto|]. split; [exact He|].
        split; [discriminate|]. intros _ _ _. split; [reflexivity|].
        unfold iso_codes_parser_init.
        destruct (initialized t) eqn:E; [exact E | reflexivity].
      * destruct (Hnone false) as (o & Ho & Hst & He & _).
        exists o. split; [exact Ho|]. split; [exact Hst|].
        split; [exact He|]. split; discriminate.
    + destruct (Hnone false) as (o & Ho & Hst & He & _).
      exists o. split; [exact Ho|]. split; [exact Hst|].
      split; [exact He|]. split; discriminate.
  - destruct (Hnone true) as (o & Ho & Hst & He & Hrest).
    exists o. split; [exact Ho|]. split; [exact Hst|].
    split; [exact He|]. split; [intros _; exact Hrest | discriminate].
Qed.

Lemma parse_iso_codes_outcome_witness :
  let p := {| environ := fun _ => None; locale := "C";
              environ_writes := [] |} in
  let t := {| initialized := false; bindtextdomain_calls := [];
              bind_textdomain_codeset_calls := [] |} in
  let file :=
    {| file_events :=
         [START_ELEMENT "iso_639_entries" [] [];
          START_ELEMENT "iso_639_entry" ["iso_639_1_code"; "name"]
            ["aa"; "Afar"]];
       file_success := false |} in
  exists o,
    @gimp_language_store_parse_iso_codes no_catalogue true true true
      "/usr/share/locale" file [] t p = Some o /\
    (exists added,
        outcome_store o = [] ++ added /\ Forall well_formed_row added) /\
    (forall variable,
        g_getenv variable (outcome_process o) = g_getenv variable p) /\
    (true = false ->
     success o = true /\ outcome_store o = [] /\
     outcome_textdomains o = t /\ outcome_process o = p) /\
    (true = true -> true = true -> true = true ->
     success o = file_success file /\
     initialized (outcome_textdomains o) = true).
Proof.
  intros p t file.
  apply (@parse_iso_codes_outcome no_catalogue true true true
           "/usr/share/locale" file [] t p).
  reflexivity.
Defined.

End IsoCodesParseFacts.
